(** * OpenTools: the upgrade script and the client core

    A shallow embedding of [scripts/upgrade.ts], of the [toolsFromOpenAPI]
    example of the project notes, and of the client core those notes plan
    (Fetch Guard, Spec Parser, Approval Mediator, Tool Generator), with the
    properties the specification states about them. *)

From Stdlib Require Import ZArith Lia List Ascii.
From stdpp Require Import base option list strings pretty gmap.

Set Default Proof Using "Type".
Set Warnings "-register-all".

(* ===================================================================== *)
(** * Part I: definitions                                                 *)
(* ===================================================================== *)

(** ** scripts/upgrade.ts *)

Module Upgrade.

(** One entry of the [steps] array.  The [command] thunk is the shell
    line it spawns together with the directory given to [.cwd(...)]. *)
Record Step := {
  name : string;
  command : string;
  cwd : option string;
  critical : bool
}.

Definition steps : list Step :=
  [ {| name := "Next.js Upgrade";
       command := "bunx @next/codemod@latest upgrade";
       cwd := Some "apps/web";
       critical := true |};
    {| name := "shadcn/ui Components";
       command := "bunx shadcn@latest add --all --overwrite";
       cwd := Some "packages/ui";
       critical := true |};
    {| name := "Dependency Update";
       command := "bun update";
       cwd := None;
       critical := true |};
    {| name := "Ultracite Fix";
       command := "bun run fix";
       cwd := None;
       critical := false |};
    {| name := "Type Check";
       command := "bunx tsc --noEmit";
       cwd := None;
       critical := false |} ].

(** What one run of the script leaves behind: the steps whose command was
    awaited, each with the exit code it produced, in order; the exit code
    of the process; the machine the commands acted on. *)
Record Run (World : Type) := {
  ran : list (string * Z);
  exitCode : Z;
  final : World
}.
Arguments ran {World} _.
Arguments exitCode {World} _.
Arguments final {World} _.

Section Script.
(** The machine the commands act on, and Bun's shell:
    [await $`...`.cwd(dir).nothrow()] runs the line and yields its exit
    code; [nothrow] turns a failing command into a plain result. *)
Variable World : Type.
Variable shell : string -> option string -> World -> Z * World.

Definition logged (e : string * Z) (r : Run World) : Run World :=
  {| ran := e :: ran r; exitCode := exitCode r; final := final r |}.

(** The [for (const step of steps)] loop with the [failed] flag, and
    the code after it.  [process.exit(1)] inside the loop ends the run
    on the spot; falling off the end of the module exits with 0. *)
Fixpoint loop (todo : list Step) (failed : bool) (w : World) : Run World :=
  match todo with
  | [] =>
      {| ran := []; exitCode := if failed then 1%Z else 0%Z; final := w |}
  | step :: rest =>
      let '(code, w') := shell (command step) (cwd step) w in
      if (code =? 0)%Z then logged (name step, code) (loop rest failed w')
      else if critical step then
        {| ran := [(name step, code)]; exitCode := 1%Z; final := w' |}
      else logged (name step, code) (loop rest true w')
  end.

Definition main (w : World) : Run World := loop steps false w.

(** What the shell answers when the commands of [todo] are run one after
    the other, each on the machine the previous one left, whatever their
    exit codes: the yardstick the loop is measured against. *)
Fixpoint outcomes (todo : list Step) (w : World) : list (string * Z) :=
  match todo with
  | [] => []
  | step :: rest =>
      let '(code, w') := shell (command step) (cwd step) w in
      (name step, code) :: outcomes rest w'
  end.
End Script.

Arguments logged {World} _ _.
Arguments loop {World} _ _ _ _.
Arguments main {World} _ _.
Arguments outcomes {World} _ _ _.

(** A shell for examples: the world is the list of lines already run, and
    a line fails with code 2 exactly when it is in [broken]. *)
Definition scriptedShell (broken : list string)
    (line : string) (_ : option string) (w : list string) : Z * list string :=
  ((if bool_decide (line ∈ broken) then 2 else 0)%Z, w ++ [line]).

End Upgrade.

(** ** scripts/upgrade.ts: what the script prints *)

Module UpgradeConsole.
Import Upgrade.

(** [console.log] writes to standard output, [console.error] and
    [console.warn] to standard error. *)
Inductive Stream := Stdout | Stderr.

Global Instance Stream_eq_dec : EqDecision Stream.
Proof. solve_decision. Defined.

Definition SEPARATOR_WIDTH : nat := 50.

(** [s.repeat(n)] *)
Fixpoint repeat (s : string) (n : nat) : string :=
  match n with
  | O => ""
  | S n' => s +:+ repeat s n'
  end.

Definition newline : string := String (ascii_of_nat 10) "".

Definition log (text : string) : Stream * string := (Stdout, text).
Definition error (text : string) : Stream * string := (Stderr, text).
Definition warn (text : string) : Stream * string := (Stderr, text).

Section Script.
Variable World : Type.
Variable shell : string -> option string -> World -> Z * World.

(** The lines the loop and the code after it write, in order. *)
Fixpoint console (todo : list Step) (failed : bool) (w : World)
    : list (Stream * string) :=
  match todo with
  | [] =>
      if failed then [warn (newline +:+ "Upgrade completed with warnings.")]
      else [log (newline +:+ "Upgrade completed successfully.")]
  | step :: rest =>
      let '(code, w') := shell (command step) (cwd step) w in
      [ log (newline +:+ repeat "=" SEPARATOR_WIDTH);
        log (">> " +:+ name step);
        log (repeat "=" SEPARATOR_WIDTH) ] ++
      if (code =? 0)%Z then
        log (newline +:+ "✓ " +:+ name step +:+ " completed") :: console rest failed w'
      else
        error (newline +:+ "!! " +:+ name step +:+ " failed (exit code "
               +:+ pretty code +:+ ")") ::
        if critical step then [error "Critical step failed, aborting."]
        else warn "Non-critical failure, continuing..." :: console rest true w'
  end.

Definition output (w : World) : list (Stream * string) := console steps false w.
End Script.

Arguments console {World} _ _ _ _.
Arguments output {World} _ _.

(** The line that announces a step. *)
Definition isHeader (line : Stream * string) : bool := String.prefix ">> " line.2.

End UpgradeConsole.

(** ** Shared vocabulary: JSON values, approval levels, decisions *)

Inductive Json :=
  | JNull
  | JBool (b : bool)
  | JNum (n : Z)
  | JStr (s : string)
  | JArr (items : list Json)
  | JObj (fields : list (string * Json)).

(** ["auto" | "per-call"], ordered by strictness. *)
Inductive Approval := Auto | PerCall.

Global Instance Approval_eq_dec : EqDecision Approval.
Proof. solve_decision. Defined.

Definition strictness (a : Approval) : nat :=
  match a with Auto => 0 | PerCall => 1 end.

Definition approval_le (a b : Approval) : Prop := strictness a ≤ strictness b.

Definition approval_max (a b : Approval) : Approval :=
  match a with PerCall => PerCall | Auto => b end.

(** The four answers to a consent prompt. *)
Inductive Decision := ApproveOnce | ApproveAlways | DenyOnce | DenyAlways.

Global Instance Decision_eq_dec : EqDecision Decision.
Proof. solve_decision. Defined.

Definition approves (d : Decision) : bool :=
  match d with ApproveOnce | ApproveAlways => true | DenyOnce | DenyAlways => false end.

(** [{ denied: true }] *)
Definition denied : Json := JObj [("denied", JBool true)].

(** [Object.fromEntries]: a later entry with the same key replaces an
    earlier one. *)
Definition fromEntries {V : Type} (entries : list (string * V)) : gmap string V :=
  foldl (λ m kv, <[kv.1 := kv.2]> m) ∅ entries.

(** ** The OpenAPI document with its [x-llm] extension *)

Module OpenAPI.

(** Document root: [x-llm: { version, name, description, defaultApproval }]. *)
Record RootXLlm := {
  version : string;
  name : string;
  description : string;
  defaultApproval : Approval
}.

Record RateLimit := { max : Z; window : string }.

Inductive CostIndicator := Free | Credits | Paid.

(** Operation level [x-llm]; every field may be missing from the JSON. *)
Record XLlm := {
  enabled : option bool;
  approval : option Approval;
  blanketApprovalAllowed : option bool;
  destructive : option bool;
  rateLimit : option RateLimit;
  hint : option string;
  costIndicator : option CostIndicator
}.

Inductive Location := InPath | InQuery | InHeader | InCookie.

Global Instance Location_eq_dec : EqDecision Location.
Proof. solve_decision. Defined.

(** A named, typed input: an entry of [parameters], or a property of the
    request body. *)
Record Property := {
  propName : string;
  propSchema : Json;
  required : bool
}.

Record ParameterObject := { location : Location; property : Property }.

(** An OpenAPI operation object.  [summary] is optional: the notes' own
    [deleteRecipe] route has none. *)
Record Operation := {
  operationId : string;
  summary : option string;
  parameters : list ParameterObject;
  requestBody : list Property;
  x_llm : option XLlm
}.

(** [paths]: path, then method, then operation, in declaration order. *)
Record OpenAPIDocument := {
  openapi : string;
  root_x_llm : option RootXLlm;
  paths : list (string * list (string * Operation))
}.

(** Every (path, method, operation) of the document, in declaration
    order. *)
Definition entries (doc : OpenAPIDocument) : list (string * string * Operation) :=
  flat_map (λ item, map (λ mo, (item.1, mo.1, mo.2)) item.2) (paths doc).

(** The operation's own extension block sets [enabled: true]. *)
Definition enabledTrue (op : Operation) : bool :=
  bool_decide ((x_llm op ≫= enabled) = Some true).

(** Operations and documents used in examples. *)
Definition listTasks : Operation :=
  {| operationId := "listTasks"; summary := Some "List tasks";
     parameters := []; requestBody := [];
     x_llm := Some {| enabled := Some true; approval := Some Auto;
                      blanketApprovalAllowed := None; destructive := None;
                      rateLimit := Some {| max := 3; window := "1m" |};
                      hint := None; costIndicator := None |} |}.

Definition deleteTask : Operation :=
  {| operationId := "deleteTask"; summary := None;
     parameters :=
       [ {| location := InPath;
            property := {| propName := "id"; propSchema := JStr "string";
                           required := true |} |} ];
     requestBody := [];
     x_llm := Some {| enabled := Some true; approval := Some PerCall;
                      blanketApprovalAllowed := Some false;
                      destructive := Some true;
                      rateLimit := None; hint := None;
                      costIndicator := None |} |}.

Definition exportTasks : Operation :=
  {| operationId := "exportTasks"; summary := Some "Export all tasks";
     parameters := []; requestBody := [];
     x_llm := Some {| enabled := None; approval := Some Auto;
                      blanketApprovalAllowed := None; destructive := None;
                      rateLimit := None; hint := None;
                      costIndicator := None |} |}.

Definition health : Operation :=
  {| operationId := "health"; summary := Some "Liveness probe";
     parameters := []; requestBody := []; x_llm := None |}.

Definition taskTracker : OpenAPIDocument :=
  {| openapi := "3.1.0";
     root_x_llm := Some {| version := "0.1"; name := "TaskTracker";
                           description := "Track tasks";
                           defaultApproval := PerCall |};
     paths := [ ("/tasks", [("get", listTasks)]);
                ("/tasks/{id}", [("delete", deleteTask)]);
                ("/export", [("get", exportTasks)]);
                ("/health", [("get", health)]) ] |}.

Definition recipeApp : OpenAPIDocument :=
  {| openapi := "3.1.0";
     root_x_llm := Some {| version := "0.1"; name := "RecipeApp";
                           description := "Save, organize, and discover recipes";
                           defaultApproval := PerCall |};
     paths := [ ("/tasks", [("get", listTasks)]) ] |}.

End OpenAPI.

(** ** The [toolsFromOpenAPI] example of the project notes *)

Module ToolsFromOpenAPI.
Import OpenAPI.

(** Modelled from the spec: [getOperationsWithXLlm] is not in the source.
    The responsibilities listed for the client say "parse operations with
    x-llm.enabled: true": the operations of the document, in declaration
    order, whose own extension block sets [enabled] to [true]. *)
Definition enabledOperations (spec : OpenAPIDocument) : list Operation :=
  filter (λ op, enabledTrue op = true) (map snd (entries spec)).

Inductive Error :=
  | TypeError
  | Thrown (reason : Json).

(** A promise that has settled. *)
Inductive Settled (A : Type) :=
  | Resolved (a : A)
  | Rejected (e : Error).
Arguments Resolved {A} _.
Arguments Rejected {A} _.

Section Client.
Variable AuthTokens : Type.
Variable Zod : Type.

(** What the host observes: consent prompts and calls to the endpoint. *)
Inductive Event :=
  | Asked (op : Operation) (params : Json)
  | Fetched (op : Operation) (params : Json) (tokens : AuthTokens).

(** An [async] computation: it reads the events so far, appends its
    own, and settles. *)
Definition Async (A : Type) : Type := list Event -> Settled A * list Event.

Definition ret {A} (a : A) : Async A := λ log, (Resolved a, log).
Definition throw {A} (e : Error) : Async A := λ log, (Rejected e, log).
Definition bind {A B} (c : Async A) (k : A -> Async B) : Async B :=
  λ log, match c log with
         | (Resolved a, log') => k a log'
         | (Rejected e, log') => (Rejected e, log')
         end.

(** The helpers the example calls and the notes leave to the host:
    what the consent prompt and the endpoint answer, given everything
    that happened before. *)
Variable getOperationsWithXLlm : OpenAPIDocument -> list Operation.
Variable jsonSchemaToZod : list ParameterObject -> Zod.
Variable approvalReply : list Event -> Operation -> Json -> Settled bool.
Variable endpointReply : list Event -> Operation -> Json -> AuthTokens -> Settled Json.

Definition requestApproval (op : Operation) (params : Json) : Async bool :=
  λ log, (approvalReply log op params, log ++ [Asked op params]).

Definition fetchEndpoint (op : Operation) (params : Json) (tokens : AuthTokens)
    : Async Json :=
  λ log, (endpointReply log op params tokens, log ++ [Fetched op params tokens]).

(** The [execute] callback of one tool.  Reading [.approval] of a
    missing [x-llm] block throws. *)
Definition execute (op : Operation) (tokens : AuthTokens) (params : Json)
    : Async Json :=
  match x_llm op with
  | None => throw TypeError
  | Some llmMeta =>
      if decide (approval llmMeta = Some PerCall) then
        bind (requestApproval op params) (λ approved,
          if negb approved then ret denied
          else fetchEndpoint op params tokens)
      else fetchEndpoint op params tokens
  end.

Record Tool := {
  description : string;
  toolParameters : Zod;
  toolExecute : Json -> Async Json
}.

(** What [op.summary] contributes to a string concatenation: a missing
    summary is [undefined], which [+] renders as the text "undefined". *)
Definition summaryText (op : Operation) : string :=
  match summary op with
  | Some text => text
  | None => "undefined"
  end.

(** [op.summary + (op['x-llm']?.hint ? `\n${hint}` : '')]; the empty
    string is falsy. *)
Definition describe (op : Operation) : string :=
  summaryText op ++
  match x_llm op ≫= hint with
  | Some h => if decide (h = "") then "" else String (ascii_of_nat 10) h
  | None => ""
  end.

Definition tool (op : Operation) (tokens : AuthTokens) : Tool :=
  {| description := describe op;
     toolParameters := jsonSchemaToZod (parameters op);
     toolExecute := execute op tokens |}.

Definition toolsFromOpenAPI (spec : OpenAPIDocument) (tokens : AuthTokens)
    : gmap string Tool :=
  let ops := getOperationsWithXLlm spec in
  fromEntries (map (λ op, (operationId op, tool op tokens)) ops).

(** The events a computation adds to the log. *)
Definition emitted {A} (c : Async A) (log : list Event) : list Event :=
  drop (length log) (c log).2.

Definition isAsked (e : Event) : bool :=
  match e with Asked _ _ => true | Fetched _ _ _ => false end.

Definition isFetched (e : Event) : bool :=
  match e with Fetched _ _ _ => true | Asked _ _ => false end.

(** The approval level a call is actually held to: [PerCall] when the
    call puts a consent prompt before the endpoint, [Auto] when it goes
    straight through. *)
Definition enforcedApproval (op : Operation) (tokens : AuthTokens) (params : Json)
    (log : list Event) : Approval :=
  if existsb isAsked (emitted (execute op tokens params) log) then PerCall else Auto.
End Client.

Arguments Asked {AuthTokens} _ _.
Arguments Fetched {AuthTokens} _ _ _.
Arguments ret {AuthTokens A} _ _.
Arguments throw {AuthTokens A} _ _.
Arguments bind {AuthTokens A B} _ _ _.
Arguments emitted {AuthTokens A} _ _.
Arguments isAsked {AuthTokens} _.
Arguments isFetched {AuthTokens} _.

(** A host for examples: no tokens, a consent prompt that always gives
    the same answer, an endpoint that always returns [null]. *)
Definition fixedReply (answer : bool)
    (_ : list (Event unit)) (_ : Operation) (_ : Json) : Settled bool :=
  Resolved answer.

Definition nullEndpoint
    (_ : list (Event unit)) (_ : Operation) (_ : Json) (_ : unit) : Settled Json :=
  Resolved JNull.

End ToolsFromOpenAPI.

(** ** The client core: failure taxonomy *)

Inductive Failure :=
  | SsrfBlocked | Timeout | NetworkError | TooManyRedirects
  | DiscoveryNotFound | MalformedDocument | UnsupportedAuthScheme
  | NoLlmExtension | UnsupportedSpecVersion
  | InvalidParams (fieldPaths : list string) | RateLimited | AuthExpired.

(** ** Fetch Guard *)

Module FetchGuard.

(** An address a host name resolves to: the 32 bits of an IPv4 address or
    the 128 bits of an IPv6 address. *)
Inductive Addr := IPv4 (bits : Z) | IPv6 (bits : Z).

Definition ipv4 (a b c d : Z) : Addr :=
  IPv4 (Z.lor (Z.shiftl a 24) (Z.lor (Z.shiftl b 16) (Z.lor (Z.shiftl c 8) d))).

(** 127.0.0.0/8 and ::1 *)
Definition isLoopback (addr : Addr) : bool :=
  match addr with
  | IPv4 n => (Z.shiftr n 24 =? 127)%Z
  | IPv6 n => (n =? 1)%Z
  end.

(** 169.254.0.0/16 and fe80::/10 *)
Definition isLinkLocal (addr : Addr) : bool :=
  match addr with
  | IPv4 n => (Z.shiftr n 16 =? 0xA9FE)%Z
  | IPv6 n => (Z.shiftr n 118 =? 0x3FA)%Z
  end.

(** 10.0.0.0/8, 172.16.0.0/12, 192.168.0.0/16 and fc00::/7 *)
Definition isPrivate (addr : Addr) : bool :=
  match addr with
  | IPv4 n =>
      (Z.shiftr n 24 =? 10)%Z || (Z.shiftr n 20 =? 0xAC1)%Z
      || (Z.shiftr n 16 =? 0xC0A8)%Z
  | IPv6 n => (Z.shiftr n 121 =? 0x7E)%Z
  end.

Definition nonPublic (addr : Addr) : bool :=
  isLoopback addr || isLinkLocal addr || isPrivate addr.

Record Url := {
  scheme : string;
  host : string;
  port : option Z;
  path : string
}.

(** [{method, headers, body, timeoutMs}]; the cancellation signal is not
    modelled. *)
Record Request := {
  method : string;
  headers : list (string * string);
  body : option Json;
  timeoutMs : option Z
}.

Record Response := { status : Z; payload : Json }.

(** What comes back from one round trip, with the milliseconds it took. *)
Inductive Reply :=
  | Answered (elapsed : Z) (response : Response)
  | Redirected (elapsed : Z) (location : Url)
  | Unreachable.

Definition defaultTimeoutMs : Z := 10000.

Definition timeoutOf (req : Request) : Z := default defaultTimeoutMs (timeoutMs req).

Inductive Verdict := Pass (addr : Addr) | Block | Unresolved.

(** One [fetchSafe] call: how it ended, the network it leaves behind, and
    the requests it put on the wire, each with the address it went to. *)
Record Fetch (Net : Type) := {
  result : Failure + Response;
  after : Net;
  delivered : list (Url * Addr)
}.
Arguments result {Net} _.
Arguments after {Net} _.
Arguments delivered {Net} _.

Section Guard.
(** The network: name resolution and one HTTP round trip to an
    address. *)
Variable Net : Type.
Variable resolve : Net -> string -> option Addr.
Variable exchange : Net -> Addr -> Url -> Request -> Reply * Net.
(** The policy's configuration: explicitly allow-listed targets (local
    development), and how many redirects a fetch may follow. *)
Variable allowList : list string.
Variable maxRedirects : nat.

Definition allowListed (url : Url) : bool := bool_decide (host url ∈ allowList).

(** Modelled from the spec: the policy of [fetchSafe], which is not in the
    source.  Before connecting, the host is resolved and a loopback,
    link-local or private-range address is rejected unless the target is
    allow-listed; a non-HTTPS target is rejected except in that
    allow-listed case. *)
Definition vet (net : Net) (url : Url) : Verdict :=
  if allowListed url then
    match resolve net (host url) with
    | Some addr => Pass addr
    | None => Unresolved
    end
  else if negb (bool_decide (scheme url = "https")) then Block
  else
    match resolve net (host url) with
    | Some addr => if nonPublic addr then Block else Pass addr
    | None => Unresolved
    end.

Definition sent (hop : Url * Addr) (f : Fetch Net) : Fetch Net :=
  {| result := result f; after := after f; delivered := hop :: delivered f |}.

Definition failed (e : Failure) (net : Net) (hops : list (Url * Addr)) : Fetch Net :=
  {| result := inl e; after := net; delivered := hops |}.

(** Modelled from the spec: the body of [fetchSafe], which is not in the
    source.  Every redirect hop goes through the same [vet] as the initial
    URL; each round trip is bounded by the timeout; a chain longer than
    [maxRedirects] fails with [TooManyRedirects]. *)
Fixpoint follow (redirectsLeft : nat) (url : Url) (req : Request) (net : Net)
    : Fetch Net :=
  match vet net url with
  | Block => failed SsrfBlocked net []
  | Unresolved => failed NetworkError net []
  | Pass addr =>
      let '(reply, net1) := exchange net addr url req in
      match reply with
      | Unreachable => failed NetworkError net1 [(url, addr)]
      | Answered elapsed response =>
          if (timeoutOf req <=? elapsed)%Z then failed Timeout net1 [(url, addr)]
          else {| result := inr response; after := net1;
                  delivered := [(url, addr)] |}
      | Redirected elapsed location =>
          if (timeoutOf req <=? elapsed)%Z then failed Timeout net1 [(url, addr)]
          else
            match redirectsLeft with
            | O => failed TooManyRedirects net1 [(url, addr)]
            | S n => sent (url, addr) (follow n location req net1)
            end
      end
  end.

(** Modelled from the spec: [fetchSafe(url, {method, headers, body,
    timeoutMs})], which is not in the source. *)
Definition fetchSafe (url : Url) (req : Request) (net : Net) : Fetch Net :=
  follow maxRedirects url req net.

(** [Hops req net url k net' url']: starting at [url], the servers
    redirect [k] times, each hop passing the policy and answering in
    time, and the chain stands at [url'] with the network in [net']. *)
Inductive Hops (req : Request) : Net -> Url -> nat -> Net -> Url -> Prop :=
  | hops_here net url : Hops req net url 0 net url
  | hops_next net url addr elapsed location net1 k net2 url2 :
      vet net url = Pass addr ->
      exchange net addr url req = (Redirected elapsed location, net1) ->
      (elapsed < timeoutOf req)%Z ->
      Hops req net1 location k net2 url2 ->
      Hops req net url (S k) net2 url2.
End Guard.

Arguments sent {Net} _ _.
Arguments failed {Net} _ _ _.
Arguments Hops {Net} _ _ _ _ _ _ _ _ _.

(** A network for examples: two public names, one of which redirects to
    the cloud metadata address. *)
Definition exampleResolve (_ : unit) (h : string) : option Addr :=
  if decide (h = "app.example") then Some (ipv4 93 184 216 34)
  else if decide (h = "metadata.internal") then Some (ipv4 169 254 169 254)
  else None.

Definition metadataUrl : Url :=
  {| scheme := "https"; host := "metadata.internal"; port := None;
     path := "/latest/meta-data" |}.

Definition appUrl : Url :=
  {| scheme := "https"; host := "app.example"; port := None;
     path := "/openapi.json" |}.

Definition exampleExchange (_ : unit) (_ : Addr) (url : Url) (_ : Request)
    : Reply * unit :=
  if decide (host url = "app.example") then (Redirected 5 metadataUrl, tt)
  else (Answered 5 {| status := 200; payload := JStr "secret" |}, tt).

Definition getRequest : Request :=
  {| method := "GET"; headers := []; body := None; timeoutMs := None |}.

End FetchGuard.

(** ** Spec Parser *)

Module SpecParser.
Import OpenAPI.

(** One eligible endpoint; immutable after parsing. *)
Record OperationDescriptor := {
  operationId : string;
  method : string;
  path : string;
  inputSchema : list Property;
  approval : Approval;
  blanketApprovalAllowed : bool;
  destructive : bool;
  rateLimit : option RateLimit;
  hint : option string;
  costIndicator : option CostIndicator
}.

Record ParsedSpec := {
  root : RootXLlm;
  operations : list OperationDescriptor
}.

Definition located (l : Location) (op : Operation) : list Property :=
  map property (filter (λ p, location p = l) (parameters op)).

(** Of several properties with one name, the first stands. *)
Fixpoint firstWins (props : list Property) : list Property :=
  match props with
  | [] => []
  | p :: rest => p :: filter (λ q, propName q ≠ propName p) (firstWins rest)
  end.

(** Modelled from the spec: the schema merge of the Spec Parser, which is
    not in the source.  One merged input schema from path parameters,
    query parameters and request body, each property keeping its required
    flag; on a name collision the precedence is path > query > body. *)
Definition mergedInputSchema (op : Operation) : list Property :=
  firstWins (located InPath op ++ located InQuery op ++ requestBody op).

(** Modelled from the spec: the descriptor the Spec Parser, which is not
    in the source, builds for an operation.  Missing operation-level
    fields inherit the document defaults: [approval] defaults to the
    root's [defaultApproval], [blanketApprovalAllowed] and [destructive]
    to [false]. *)
Definition describe (rootMeta : RootXLlm) (p m : string) (op : Operation) (x : XLlm)
    : OperationDescriptor :=
  {| operationId := OpenAPI.operationId op;
     method := m;
     path := p;
     inputSchema := mergedInputSchema op;
     approval := default (defaultApproval rootMeta) (OpenAPI.approval x);
     blanketApprovalAllowed := default false (OpenAPI.blanketApprovalAllowed x);
     destructive := default false (OpenAPI.destructive x);
     rateLimit := OpenAPI.rateLimit x;
     hint := OpenAPI.hint x;
     costIndicator := OpenAPI.costIndicator x |}.

(** Modelled from the spec: the eligibility test of the Spec Parser, which
    is not in the source.  An operation is eligible only if its own
    extension block sets [enabled: true]. *)
Definition eligible (rootMeta : RootXLlm) (p m : string) (op : Operation)
    : option OperationDescriptor :=
  match x_llm op with
  | Some x =>
      match enabled x with
      | Some true => Some (describe rootMeta p m op x)
      | _ => None
      end
  | None => None
  end.

(** Modelled from the spec: the Spec Parser's walk over path entries and,
    inside each, over method entries; it is not in the source. *)
Definition walk (rootMeta : RootXLlm)
    (items : list (string * list (string * Operation))) : list OperationDescriptor :=
  flat_map (λ item,
    flat_map (λ mo, option_list (eligible rootMeta item.1 mo.1 mo.2)) item.2) items.

Section Parser.
Variable Net : Type.
Variable resolve : Net -> string -> option FetchGuard.Addr.
Variable exchange :
  Net -> FetchGuard.Addr -> FetchGuard.Url -> FetchGuard.Request ->
  FetchGuard.Reply * Net.
Variable allowList : list string.
Variable maxRedirects : nat.
(** Reading the fetched JSON as an OpenAPI document ([None] when its
    shape is wrong), and the versions of the extension the client
    understands. *)
Variable decodeDocument : Json -> option OpenAPIDocument.
Variable supportedVersion : string -> bool.

(** Modelled from the spec: the parsing half of [parseSpec], which is not
    in the source.  Without a root extension block the document does not
    participate ([NoLlmExtension]); otherwise the eligible operations are
    kept, in declaration order. *)
Definition parseDocument (doc : OpenAPIDocument) : Failure + ParsedSpec :=
  match root_x_llm doc with
  | None => inl NoLlmExtension
  | Some rootMeta =>
      if supportedVersion (version rootMeta) then
        inr {| root := rootMeta; operations := walk rootMeta (paths doc) |}
      else inl UnsupportedSpecVersion
  end.

Definition specRequest : FetchGuard.Request :=
  {| FetchGuard.method := "GET"; FetchGuard.headers := [];
     FetchGuard.body := None; FetchGuard.timeoutMs := None |}.

(** Modelled from the spec: [parseSpec(specUrl)], which is not in the
    source.  It fetches the document through the Fetch Guard, whose
    failures it passes on, and parses it. *)
Definition parseSpec (specUrl : FetchGuard.Url) (net : Net)
    : (Failure + ParsedSpec) * FetchGuard.Fetch Net :=
  let fetched :=
    FetchGuard.fetchSafe Net resolve exchange allowList maxRedirects
      specUrl specRequest net in
  (match FetchGuard.result fetched with
   | inl e => inl e
   | inr response =>
       match decodeDocument (FetchGuard.payload response) with
       | None => inl MalformedDocument
       | Some doc => parseDocument doc
       end
   end, fetched).
End Parser.

End SpecParser.

(** ** Approval Mediator, rate limiter, Credential Attacher, Tool Generator *)

Module ToolGenerator.
Import SpecParser.

Inductive Standing := AlwaysAllow | AlwaysDeny.

Global Instance Standing_eq_dec : EqDecision Standing.
Proof. solve_decision. Defined.

(** Token-bucket state of one operation. *)
Record Bucket := { tokens : Z; windowStart : Z }.

Inductive Credential := ApiKey (key : string) | OAuth2 (token : string).

Record Connection := {
  baseUrl : FetchGuard.Url;
  credential : Credential;
  cachedSpec : option ParsedSpec;
  cacheExpiry : Z;
  standingDecisions : gmap string Standing;
  rateLimiterState : gmap string Bucket
}.

(** What the consent callback is shown. *)
Record ApprovalRequest := {
  operation : OperationDescriptor;
  params : Json;
  isDestructive : bool
}.

(** A tool: a read-only view bound to one descriptor.  (Its [invoke] is
    [invoke] below at that descriptor; its description is not derived
    here.) *)
Record Tool := {
  name : string;
  toolInputSchema : list OpenAPI.Property;
  descriptor : OperationDescriptor
}.

(** The standing decision an answer asks for. *)
Definition standingOf (d : Decision) : option Standing :=
  match d with
  | ApproveAlways => Some AlwaysAllow
  | DenyAlways => Some AlwaysDeny
  | ApproveOnce | DenyOnce => None
  end.

Definition decisionOf (s : Standing) : Decision :=
  match s with AlwaysAllow => ApproveAlways | AlwaysDeny => DenyAlways end.

Section Host.
Variable Net : Type.
Variable resolve : Net -> string -> option FetchGuard.Addr.
Variable exchange :
  Net -> FetchGuard.Addr -> FetchGuard.Url -> FetchGuard.Request ->
  FetchGuard.Reply * Net.
Variable allowList : list string.
Variable maxRedirects : nat.

(** The host's side of one connection: the connection itself, the
    network, the consent prompts shown so far with their answers
    ([None]: cancelled while pending), and the requests sent. *)
Record Host := {
  conn : Connection;
  net : Net;
  prompts : list (ApprovalRequest * option Decision);
  wire : list (FetchGuard.Url * FetchGuard.Addr)
}.

Definition standing (h : Host) : gmap string Standing :=
  standingDecisions (conn h).

Definition buckets (h : Host) : gmap string Bucket :=
  rateLimiterState (conn h).

(** The collaborators: the consent callback, which may take into
    account everything it was asked before; schema validation, giving
    the violating field paths; how a call becomes an HTTP request; the
    length of a window such as "1m" in milliseconds; the OAuth2 token
    refresh; the naming scheme of tools. *)
Variable consent :
  list (ApprovalRequest * option Decision) -> ApprovalRequest -> option Decision.
Variable validate : list OpenAPI.Property -> Json -> list string.
Variable buildRequest :
  FetchGuard.Url -> OperationDescriptor -> Json -> FetchGuard.Url * FetchGuard.Request.
Variable windowMillis : string -> Z.
Variable refreshToken : Net -> string -> option string * Net.
Variable namespaced : string -> string -> string.

Definition withStanding (f : gmap string Standing -> gmap string Standing)
    (h : Host) : Host :=
  {| conn := {| baseUrl := baseUrl (conn h);
                credential := credential (conn h);
                cachedSpec := cachedSpec (conn h);
                cacheExpiry := cacheExpiry (conn h);
                standingDecisions := f (standingDecisions (conn h));
                rateLimiterState := rateLimiterState (conn h) |};
     net := net h; prompts := prompts h; wire := wire h |}.

Definition withBuckets (f : gmap string Bucket -> gmap string Bucket)
    (h : Host) : Host :=
  {| conn := {| baseUrl := baseUrl (conn h);
                credential := credential (conn h);
                cachedSpec := cachedSpec (conn h);
                cacheExpiry := cacheExpiry (conn h);
                standingDecisions := standingDecisions (conn h);
                rateLimiterState := f (rateLimiterState (conn h)) |};
     net := net h; prompts := prompts h; wire := wire h |}.

Definition withCredential (c : Credential) (h : Host) : Host :=
  {| conn := {| baseUrl := baseUrl (conn h);
                credential := c;
                cachedSpec := cachedSpec (conn h);
                cacheExpiry := cacheExpiry (conn h);
                standingDecisions := standingDecisions (conn h);
                rateLimiterState := rateLimiterState (conn h) |};
     net := net h; prompts := prompts h; wire := wire h |}.

Definition prompted (entry : ApprovalRequest * option Decision) (h : Host) : Host :=
  {| conn := conn h; net := net h; prompts := prompts h ++ [entry];
     wire := wire h |}.

Definition fetched (f : FetchGuard.Fetch Net) (h : Host) : Host :=
  {| conn := conn h; net := FetchGuard.after f; prompts := prompts h;
     wire := wire h ++ FetchGuard.delivered f |}.

(** Modelled from the spec: [requestApproval(op, params)] of the Approval
    Mediator, which is not in the source.  A standing entry for
    [op.operationId] resolves the request at once, with no prompt.
    Otherwise the request is put to the consent callback; its decision
    is persisted only if its scope is always and the operation allows
    blanket approval.  A request cancelled while pending is a denial
    and writes nothing. *)
Definition requestApproval (op : OperationDescriptor) (ps : Json) (h : Host)
    : Decision * Host :=
  match standingDecisions (conn h) !! operationId op with
  | Some s => (decisionOf s, h)
  | None =>
      let request :=
        {| operation := op; params := ps; isDestructive := destructive op |} in
      let reply := consent (prompts h) request in
      let h1 := prompted (request, reply) h in
      match reply with
      | None => (DenyOnce, h1)
      | Some d =>
          match standingOf d with
          | Some s =>
              if blanketApprovalAllowed op
              then (d, withStanding (λ m, <[operationId op := s]> m) h1)
              else (d, h1)
          | None => (d, h1)
          end
      end
  end.

(** The entry a prompt for [op] adds to the log: what the callback is
    shown, and what it answers. *)
Definition asked (op : OperationDescriptor) (ps : Json) (h : Host)
    : ApprovalRequest * option Decision :=
  let request :=
    {| operation := op; params := ps; isDestructive := destructive op |} in
  (request, consent (prompts h) request).

(** What one request for approval of [op] may do to the prompts and to the
    standing decisions: nothing; or one prompt, for an operation without a
    standing entry, which leaves the standing decisions alone or, when the
    answer is an always decision and the operation allows blanket
    approval, writes that one entry. *)
Definition ConsentStep (op : OperationDescriptor) (ps : Json) (h h' : Host) : Prop :=
  (prompts h' = prompts h ∧ standing h' = standing h) ∨
  (standing h !! operationId op = None ∧
   prompts h' = prompts h ++ [asked op ps h] ∧
   (standing h' = standing h ∨
    ∃ d s, (asked op ps h).2 = Some d ∧ standingOf d = Some s ∧
           blanketApprovalAllowed op = true ∧
           standing h' = <[operationId op := s]> (standing h))).

(** Modelled from the spec: step 2 of [invoke], which is not in the
    source.  The effective approval is the stricter of the site's and the
    user's; when it is per-call the mediator decides. *)
Definition effectiveApproval (op : OperationDescriptor) (pref : Approval) : Approval :=
  approval_max (approval op) pref.

Definition gate (op : OperationDescriptor) (pref : Approval) (ps : Json) (h : Host)
    : bool * Host :=
  match effectiveApproval op pref with
  | Auto => (true, h)
  | PerCall =>
      let '(d, h1) := requestApproval op ps h in (approves d, h1)
  end.

(** Modelled from the spec: the per-operation rate limiter, which is not
    in the source.  A bucket of [max] tokens, full when first used and
    filled again once its window has elapsed. *)
Definition refill (limit : OpenAPI.RateLimit) (now : Z) (b : option Bucket) : Bucket :=
  match b with
  | None => {| tokens := OpenAPI.max limit; windowStart := now |}
  | Some b =>
      if (windowMillis (OpenAPI.window limit) <=? now - windowStart b)%Z
      then {| tokens := OpenAPI.max limit; windowStart := now |}
      else b
  end.

(** Modelled from the spec: step 3 of [invoke], which is not in the
    source: take one token, or report exhaustion. *)
Definition throttle (op : OperationDescriptor) (now : Z) (h : Host) : bool * Host :=
  match rateLimit op with
  | None => (true, h)
  | Some limit =>
      let b := refill limit now (rateLimiterState (conn h) !! operationId op) in
      if (0 <? tokens b)%Z then
        (true, withBuckets (λ m, <[operationId op :=
                  {| tokens := tokens b - 1; windowStart := windowStart b |}]> m) h)
      else (false, withBuckets (λ m, <[operationId op := b]> m) h)
  end.

(** Modelled from the spec: the Credential Attacher, which is not in the
    source; both variants travel as a bearer token. *)
Definition secret (c : Credential) : string :=
  match c with ApiKey k => k | OAuth2 t => t end.

Definition attach (c : Credential) (req : FetchGuard.Request) : FetchGuard.Request :=
  {| FetchGuard.method := FetchGuard.method req;
     FetchGuard.headers :=
       ("Authorization", "Bearer " +:+ secret c) :: FetchGuard.headers req;
     FetchGuard.body := FetchGuard.body req;
     FetchGuard.timeoutMs := FetchGuard.timeoutMs req |}.

Definition send (url : FetchGuard.Url) (req : FetchGuard.Request) (h : Host)
    : (Failure + FetchGuard.Response) * Host :=
  let f := FetchGuard.fetchSafe Net resolve exchange allowList maxRedirects
             url (attach (credential (conn h)) req) (net h) in
  (FetchGuard.result f, fetched f h).

Definition unauthorized (r : FetchGuard.Response) : bool :=
  (FetchGuard.status r =? 401)%Z.

Definition wrapped (r : FetchGuard.Response) : Json :=
  JObj [("result", FetchGuard.payload r)].

(** Modelled from the spec: step 4 of [invoke], which is not in the
    source.  For OAuth2, an authorization failure is answered by exactly
    one token refresh and one retry; a second failure is [AuthExpired]. *)
Definition call (op : OperationDescriptor) (ps : Json) (h : Host)
    : (Failure + Json) * Host :=
  let '(url, req) := buildRequest (baseUrl (conn h)) op ps in
  match send url req h with
  | (inl e, h1) => (inl e, h1)
  | (inr response, h1) =>
      match credential (conn h1) with
      | OAuth2 old =>
          if unauthorized response then
            match refreshToken (net h1) old with
            | (None, net2) =>
                (inl AuthExpired,
                 {| conn := conn h1; net := net2; prompts := prompts h1;
                    wire := wire h1 |})
            | (Some fresh, net2) =>
                let h2 := withCredential (OAuth2 fresh)
                            {| conn := conn h1; net := net2;
                               prompts := prompts h1; wire := wire h1 |} in
                match send url req h2 with
                | (inl e, h3) => (inl e, h3)
                | (inr again, h3) =>
                    if unauthorized again then (inl AuthExpired, h3)
                    else (inr (wrapped again), h3)
                end
            end
          else (inr (wrapped response), h1)
      | ApiKey _ => (inr (wrapped response), h1)
      end
  end.

(** Modelled from the spec: [invoke(params)] of a generated tool, which is
    not in the source.  In order: validate;
    effective approval and, when it requires confirmation, the
    mediator, a denial being the result [{ denied: true }]; the
    per-operation rate limiter, exhaustion failing with [RateLimited]
    before any network call; the call itself. *)
Definition invoke (op : OperationDescriptor) (pref : Approval) (ps : Json) (now : Z)
    (h : Host) : (Failure + Json) * Host :=
  match validate (inputSchema op) ps with
  | [] =>
      let '(go, h1) := gate op pref ps h in
      if go then
        let '(room, h2) := throttle op now h1 in
        if room then call op ps h2 else (inl RateLimited, h2)
      else (inr denied, h1)
  | bad => (inl (InvalidParams bad), h)
  end.

(** Modelled from the spec: the last stage of [createToolsFromUrl], which
    is not in the source: one Tool per OperationDescriptor, named under
    the document's root name. *)
Definition generateTools (spec : ParsedSpec) : list Tool :=
  map (λ d, {| name := namespaced (OpenAPI.name (root spec)) (operationId d);
               toolInputSchema := inputSchema d;
               descriptor := d |})
      (operations spec).

(** A series of invocations on one connection, one after the other. *)
Record Call := {
  callOp : OperationDescriptor;
  callPref : Approval;
  callParams : Json;
  callTime : Z
}.

Fixpoint run (calls : list Call) (h : Host) : list (Failure + Json) * Host :=
  match calls with
  | [] => ([], h)
  | c :: rest =>
      let '(r, h1) := invoke (callOp c) (callPref c) (callParams c) (callTime c) h in
      let '(rs, h2) := run rest h1 in
      (r :: rs, h2)
  end.
End Host.

Arguments conn {Net} _.
Arguments net {Net} _.
Arguments prompts {Net} _.
Arguments wire {Net} _.
Arguments standing {Net} _.
Arguments buckets {Net} _.
Arguments withStanding {Net} _ _.
Arguments withBuckets {Net} _ _.
Arguments withCredential {Net} _ _.
Arguments prompted {Net} _ _.
Arguments fetched {Net} _ _.

(** A host for examples: a fresh connection to [app.example] over a
    network where every name resolves to one public address and every
    request is answered with 200; a user who approves once whatever is
    asked; no schema violations; a one-minute window. *)
Definition openResolve (_ : unit) (_ : string) : option FetchGuard.Addr :=
  Some (FetchGuard.ipv4 93 184 216 34).

Definition openExchange (_ : unit) (_ : FetchGuard.Addr) (_ : FetchGuard.Url)
    (_ : FetchGuard.Request) : FetchGuard.Reply * unit :=
  (FetchGuard.Answered 5 {| FetchGuard.status := 200; FetchGuard.payload := JNull |}, tt).

Definition answering (d : Decision)
    (_ : list (ApprovalRequest * option Decision)) (_ : ApprovalRequest)
    : option Decision := Some d.

Definition noViolations (_ : list OpenAPI.Property) (_ : Json) : list string := [].

Definition sameRequest (base : FetchGuard.Url) (_ : OperationDescriptor) (_ : Json)
    : FetchGuard.Url * FetchGuard.Request :=
  (base, FetchGuard.getRequest).

Definition minuteWindow (_ : string) : Z := 60000.

Definition noRefresh (n : unit) (_ : string) : option string * unit := (None, n).

Definition freshHost : Host unit :=
  {| conn := {| baseUrl := FetchGuard.appUrl; credential := ApiKey "k";
                cachedSpec := None; cacheExpiry := 0;
                standingDecisions := ∅; rateLimiterState := ∅ |};
     net := tt; prompts := []; wire := [] |}.

Definition taskTrackerRoot : OpenAPI.RootXLlm :=
  {| OpenAPI.version := "0.1"; OpenAPI.name := "TaskTracker";
     OpenAPI.description := "Track tasks"; OpenAPI.defaultApproval := PerCall |}.

Definition listTasksDescriptor : OperationDescriptor :=
  {| operationId := "listTasks"; method := "get"; path := "/tasks";
     inputSchema := []; approval := Auto; blanketApprovalAllowed := false;
     destructive := false;
     rateLimit := Some {| OpenAPI.max := 3; OpenAPI.window := "1m" |};
     hint := None; costIndicator := None |}.

Definition deleteTaskDescriptor : OperationDescriptor :=
  {| operationId := "deleteTask"; method := "delete"; path := "/tasks/{id}";
     inputSchema :=
       [ {| OpenAPI.propName := "id"; OpenAPI.propSchema := JStr "string";
            OpenAPI.required := true |} ];
     approval := PerCall; blanketApprovalAllowed := false;
     destructive := true; rateLimit := None; hint := None;
     costIndicator := None |}.

Definition createTaskDescriptor : OperationDescriptor :=
  {| operationId := "createTask"; method := "post"; path := "/tasks";
     inputSchema := []; approval := PerCall; blanketApprovalAllowed := true;
     destructive := false; rateLimit := None; hint := None;
     costIndicator := None |}.

(** The same host once the user has chosen "always allow" for
    [createTask], and two calls made on it. *)
Definition allowingHost : Host unit :=
  withStanding (λ m, <["createTask" := AlwaysAllow]> m) freshHost.

Definition exampleCalls : list Call :=
  [ {| callOp := createTaskDescriptor; callPref := Auto; callParams := JNull;
       callTime := 0 |};
    {| callOp := deleteTaskDescriptor; callPref := Auto; callParams := JNull;
       callTime := 10 |};
    {| callOp := createTaskDescriptor; callPref := PerCall; callParams := JNull;
       callTime := 20 |} ].

End ToolGenerator.

(* ===================================================================== *)
(** * Part II: properties                                                 *)
(* ===================================================================== *)

Module UpgradeFacts.
Import Upgrade.

Section Script.
Context {World : Type} (shell : string -> option string -> World -> Z * World).

Lemma ran_logged e (r : Run World) : ran (logged e r) = e :: ran r.
Proof. reflexivity. Qed.

Lemma exitCode_logged e (r : Run World) : exitCode (logged e r) = exitCode r.
Proof. reflexivity. Qed.

(** The exit code is 0 or 1, whatever the commands do. *)
Lemma loop_exit_range todo failed w :
  exitCode (loop shell todo failed w) = 0%Z ∨
  exitCode (loop shell todo failed w) = 1%Z.
Proof.
  revert failed w. induction todo as [|s rest IH]; intros failed w; simpl.
  - destruct failed; auto.
  - destruct (shell _ _ w) as [code w'].
    destruct (Z.eqb_spec code 0); [apply IH|].
    destruct (critical s); simpl; [auto | apply IH].
Qed.

(** The awaited commands are a prefix of the array, in order. *)
Lemma loop_ran_prefix todo failed w :
  map fst (ran (loop shell todo failed w)) =
  map name (take (length (ran (loop shell todo failed w))) todo).
Proof.
  revert failed w. induction todo as [|s rest IH]; intros failed w; simpl.
  - reflexivity.
  - destruct (shell _ _ w) as [code w'].
    destruct (Z.eqb_spec code 0); [simpl; f_equal; apply IH|].
    destruct (critical s); simpl; [reflexivity | f_equal; apply IH].
Qed.

Lemma critical_failure_general todo failed w i step c :
  todo !! i = Some step ->
  critical step = true ->
  ran (loop shell todo failed w) !! i = Some (name step, c) ->
  c ≠ 0%Z ->
  exitCode (loop shell todo failed w) = 1%Z ∧
  length (ran (loop shell todo failed w)) = S i.
Proof.
  revert failed w i. induction todo as [|s rest IH]; intros failed w i Hi Hc Hr Hne.
  - discriminate.
  - simpl in *. destruct (shell _ _ w) as [code w'].
    destruct i as [|i]; simpl in Hi.
    + injection Hi as ->.
      destruct (Z.eqb_spec code 0) as [->|Hcode].
      * simpl in Hr. congruence.
      * rewrite Hc in *. simpl in *. auto.
    + destruct (Z.eqb_spec code 0) as [->|Hcode].
      * simpl in *. destruct (IH failed w' i Hi Hc Hr Hne) as [-> ->]. auto.
      * destruct (critical s); simpl in *; [discriminate|].
        destruct (IH true w' i Hi Hc Hr Hne) as [-> ->]. auto.
Qed.

(** Exit code 0 needs every command of the array to have run and to
    have returned 0, and the flag to be clear from the start. *)
Lemma loop_exit_zero todo failed w :
  exitCode (loop shell todo failed w) = 0%Z ↔
  failed = false ∧
  map fst (ran (loop shell todo failed w)) = map name todo ∧
  Forall (λ e, e.2 = 0%Z) (ran (loop shell todo failed w)).
Proof.
  revert failed w. induction todo as [|s rest IH]; intros failed w; simpl.
  - destruct failed; split; intros H; try discriminate; auto.
    destruct H as [? _]; discriminate.
  - destruct (shell _ _ w) as [code w'].
    destruct (Z.eqb_spec code 0) as [->|Hcode].
    + rewrite exitCode_logged, ran_logged, IH. simpl.
      rewrite Forall_cons. simpl. split.
      * intros (-> & -> & ?); auto.
      * intros (-> & [= ?] & _ & ?); auto.
    + destruct (critical s); simpl.
      * split; [discriminate|].
        intros (_ & _ & H). apply Forall_inv in H. simpl in H. contradiction.
      * rewrite IH. split; [intros ([=] & _)|].
        intros (_ & _ & H). apply Forall_inv in H. simpl in H. contradiction.
Qed.

(** If no critical command fails, the loop reaches the end of the array;
    it then exits with 1 exactly when the flag was raised. *)
Lemma loop_no_critical_failure todo failed w :
  (∀ i step c, todo !! i = Some step ->
     ran (loop shell todo failed w) !! i = Some (name step, c) ->
     c ≠ 0%Z -> critical step = false) ->
  map fst (ran (loop shell todo failed w)) = map name todo ∧
  (exitCode (loop shell todo failed w) = 1%Z ↔
   failed = true ∨ Exists (λ e, e.2 ≠ 0%Z) (ran (loop shell todo failed w))).
Proof.
  revert failed w. induction todo as [|s rest IH]; intros failed w H; simpl in *.
  - split; [reflexivity|]. rewrite Exists_nil. destruct failed; split; auto.
    + intros [=].
    + intros [[=]|[]].
  - destruct (shell _ _ w) as [code w'].
    destruct (Z.eqb_spec code 0) as [->|Hcode].
    + destruct (IH failed w') as [IH1 IH2].
      { intros i step c Hi Hr. apply (H (S i) step c Hi Hr). }
      rewrite ran_logged, exitCode_logged. simpl. split; [by f_equal|].
      rewrite IH2, Exists_cons. simpl. intuition congruence.
    + destruct (critical s) eqn:Hcrit.
      * specialize (H 0%nat s code eq_refl eq_refl Hcode). congruence.
      * destruct (IH true w') as [IH1 IH2].
        { intros i step c Hi Hr. apply (H (S i) step c Hi Hr). }
        rewrite ran_logged, exitCode_logged. simpl. split; [by f_equal|].
        rewrite IH2, Exists_cons. simpl. intuition.
Qed.
(** *** The loop against the shell's own answers *)

Lemma outcomes_length todo w : length (outcomes shell todo w) = length todo.
Proof.
  revert w. induction todo as [|s rest IH]; intros w; simpl; [reflexivity|].
  destruct (shell _ _ w) as [code w']. simpl. by rewrite IH.
Qed.

(** The commands the loop awaited carry the codes the shell gave them, and
    the machine at the end is the one those commands, and no others, acted
    on in turn. *)
Lemma loop_ran_outcomes todo failed w :
  ran (loop shell todo failed w) =
    take (length (ran (loop shell todo failed w))) (outcomes shell todo w).
Proof.
  revert failed w. induction todo as [|s rest IH]; intros failed w; simpl.
  - reflexivity.
  - destruct (shell _ _ w) as [code w'].
    destruct (Z.eqb_spec code 0); [simpl; f_equal; apply IH|].
    destruct (critical s); simpl; [reflexivity|f_equal; apply IH].
Qed.

Lemma loop_final_fold todo failed w :
  final (loop shell todo failed w) =
    foldl (λ w' s, (shell (command s) (cwd s) w').2) w
      (take (length (ran (loop shell todo failed w))) todo).
Proof.
  revert failed w. induction todo as [|s rest IH]; intros failed w; simpl.
  - reflexivity.
  - destruct (shell _ _ w) as [code w'] eqn:Hsh.
    destruct (Z.eqb_spec code 0); [simpl; rewrite Hsh; apply IH|].
    destruct (critical s); simpl; rewrite Hsh; [reflexivity|apply IH].
Qed.

Lemma loop_exit_zero_outcomes todo failed w :
  exitCode (loop shell todo failed w) = 0%Z ↔
  failed = false ∧ Forall (λ e, e.2 = 0%Z) (outcomes shell todo w).
Proof.
  revert failed w. induction todo as [|s rest IH]; intros failed w; simpl.
  - destruct failed; split; intros H; try discriminate; auto.
    destruct H as [? _]; discriminate.
  - destruct (shell _ _ w) as [code w'].
    rewrite Forall_cons. simpl.
    destruct (Z.eqb_spec code 0) as [->|Hcode].
    + rewrite exitCode_logged, IH. intuition.
    + destruct (critical s); simpl.
      * split; [discriminate|]. intros (_ & ? & _). contradiction.
      * rewrite IH. split; [intros ([=] & _)|]. intros (_ & ? & _). contradiction.
Qed.

(** If the shell answers 0 to every critical command, the loop awaits every
    command of the array. *)
Lemma loop_runs_all todo failed w :
  (∀ i step c, todo !! i = Some step ->
     outcomes shell todo w !! i = Some (name step, c) ->
     c ≠ 0%Z -> critical step = false) ->
  ran (loop shell todo failed w) = outcomes shell todo w ∧
  final (loop shell todo failed w) =
    foldl (λ w' s, (shell (command s) (cwd s) w').2) w todo.
Proof.
  revert failed w. induction todo as [|s rest IH]; intros failed w H; simpl in *.
  - auto.
  - destruct (shell _ _ w) as [code w'] eqn:Hsh. simpl in *.
    destruct (Z.eqb_spec code 0) as [->|Hcode].
    + destruct (IH failed w') as [IH1 IH2].
      { intros i step c Hi Hr. apply (H (S i) step c Hi Hr). }
      simpl. split; [by f_equal|exact IH2].
    + destruct (critical s) eqn:Hcrit.
      * specialize (H 0%nat s code eq_refl eq_refl Hcode). congruence.
      * destruct (IH true w') as [IH1 IH2].
        { intros i step c Hi Hr. apply (H (S i) step c Hi Hr). }
        simpl. split; [by f_equal|exact IH2].
Qed.
End Script.

(** C9: in the upgrade script, when a step whose [critical] flag is true
    exits with a nonzero code, the script terminates with exit code 1 at
    once: the commands that ran are exactly those of the steps up to and
    including the failing one, so no later step of the array is
    executed. *)
Theorem critical_failure_aborts {World : Type}
    (shell : string -> option string -> World -> Z * World)
    (w : World) (i : nat) (step : Step) (c : Z) :
  steps !! i = Some step ->
  critical step = true ->
  ran (main shell w) !! i = Some (name step, c) ->
  c ≠ 0%Z ->
  exitCode (main shell w) = 1%Z ∧
  map fst (ran (main shell w)) = map name (take (S i) steps).
Proof.
  intros Hi Hc Hr Hne.
  destruct (critical_failure_general shell steps false w i step c Hi Hc Hr Hne)
    as [Hexit Hlen].
  split; [exact Hexit|].
  unfold main. rewrite loop_ran_prefix. f_equal. f_equal. exact Hlen.
Qed.

Lemma critical_failure_aborts_witness :
  exitCode (main (scriptedShell ["bun update"]) []) = 1%Z ∧
  map fst (ran (main (scriptedShell ["bun update"]) [])) =
    ["Next.js Upgrade"; "shadcn/ui Components"; "Dependency Update"].
Proof.
  apply (critical_failure_aborts (scriptedShell ["bun update"]) [] 2
           {| name := "Dependency Update"; command := "bun update";
              cwd := None; critical := true |} 2%Z).
  - reflexivity.
  - reflexivity.
  - vm_compute. reflexivity.
  - lia.
Defined.

(** C10: the upgrade script exits with code 0 exactly when the shell
    answers 0 to the command of every one of the five steps (equivalently:
    all five ran and each returned 0); the commands that ran carry the
    codes the shell gave them.  The non-critical steps are "Ultracite Fix"
    and "Type Check"; when they are the only ones that fail, every step of
    the array is still executed, on the machine the previous one left, and
    the script exits with code 1. *)
Theorem exit_zero_iff_all_succeed {World : Type}
    (shell : string -> option string -> World -> Z * World) (w : World) :
  (exitCode (main shell w) = 0%Z ↔
     Forall (λ e, e.2 = 0%Z) (outcomes shell steps w)) ∧
  (exitCode (main shell w) = 0%Z ↔
     map fst (ran (main shell w)) = map name steps ∧
     Forall (λ e, e.2 = 0%Z) (ran (main shell w))) ∧
  ran (main shell w) =
    take (length (ran (main shell w))) (outcomes shell steps w) ∧
  length (outcomes shell steps w) = 5%nat ∧
  length steps = 5%nat ∧
  map name (filter (λ s, critical s = false) steps) =
    ["Ultracite Fix"; "Type Check"] ∧
  ((∀ n c, (n, c) ∈ outcomes shell steps w -> c ≠ 0%Z ->
      n = "Ultracite Fix" ∨ n = "Type Check") ->
   Exists (λ e, e.2 ≠ 0%Z) (outcomes shell steps w) ->
   ran (main shell w) = outcomes shell steps w ∧
   final (main shell w) =
     foldl (λ w' s, (shell (command s) (cwd s) w').2) w steps ∧
   exitCode (main shell w) = 1%Z) ∧
  ((∀ n c, (n, c) ∈ ran (main shell w) -> c ≠ 0%Z ->
      n = "Ultracite Fix" ∨ n = "Type Check") ->
   Exists (λ e, e.2 ≠ 0%Z) (ran (main shell w)) ->
   map fst (ran (main shell w)) = map name steps ∧
   exitCode (main shell w) = 1%Z).
Proof.
  assert (Hold : (∀ n c, (n, c) ∈ ran (main shell w) -> c ≠ 0%Z ->
                    n = "Ultracite Fix" ∨ n = "Type Check") ->
                 Exists (λ e, e.2 ≠ 0%Z) (ran (main shell w)) ->
                 map fst (ran (main shell w)) = map name steps ∧
                 exitCode (main shell w) = 1%Z).
  { intros Honly Hsome. unfold main in *.
    destruct (loop_no_critical_failure shell steps false w) as [Hall Hexit].
    { intros i step c Hi Hr Hne.
      apply list_elem_of_lookup_2 in Hr. specialize (Honly _ _ Hr Hne).
      do 5 (destruct i as [|i]; [injection Hi as <-; simpl in *;
            first [reflexivity | destruct Honly; discriminate]|]).
      discriminate. }
    split; [exact Hall|]. apply Hexit. right. exact Hsome. }
  split; [|split; [|split; [|split; [|split; [reflexivity|split;
          [reflexivity|split; [|exact Hold]]]]]]].
  - unfold main. rewrite loop_exit_zero_outcomes. intuition.
  - unfold main. rewrite loop_exit_zero. intuition.
  - apply loop_ran_outcomes.
  - apply outcomes_length.
  - intros Honly Hsome. unfold main.
    destruct (loop_runs_all shell steps false w) as (Hran & Hfinal).
    { intros i step c Hi Hr Hne.
      apply list_elem_of_lookup_2 in Hr. specialize (Honly _ _ Hr Hne).
      do 5 (destruct i as [|i]; [injection Hi as <-; simpl in *;
            first [reflexivity | destruct Honly; discriminate]|]).
      discriminate. }
    split; [exact Hran|]. split; [exact Hfinal|].
    destruct (loop_exit_range shell steps false w) as [H0|H1]; [|exact H1].
    apply loop_exit_zero_outcomes in H0 as [_ H0].
    apply Exists_exists in Hsome as (e & Hin & Hne).
    rewrite Forall_forall in H0. specialize (H0 e Hin). contradiction.
Qed.

Lemma exit_zero_iff_all_succeed_witness :
  ran (main (scriptedShell ["bun run fix"]) []) =
    outcomes (scriptedShell ["bun run fix"]) steps [] ∧
  final (main (scriptedShell ["bun run fix"]) []) =
    foldl (λ w' s, (scriptedShell ["bun run fix"] (command s) (cwd s) w').2) [] steps ∧
  exitCode (main (scriptedShell ["bun run fix"]) []) = 1%Z.
Proof.
  apply (exit_zero_iff_all_succeed (scriptedShell ["bun run fix"]) []).
  - intros n c Hin Hne. vm_compute in Hin.
    repeat (apply elem_of_cons in Hin as [Hin|Hin];
            [injection Hin as -> ->; first [lia | auto]|]).
    apply elem_of_nil in Hin. contradiction.
  - vm_compute. do 3 apply Exists_cons_tl. apply Exists_cons_hd. simpl. lia.
Defined.

End UpgradeFacts.

Module ToolsFromOpenAPIFacts.
Import OpenAPI ToolsFromOpenAPI.

Lemma lookup_fromEntries {V : Type} (entries : list (string * V)) (k : string) :
  is_Some (fromEntries entries !! k) ↔ k ∈ map fst entries.
Proof.
  unfold fromEntries.
  assert (G : ∀ (m : gmap string V),
    is_Some (foldl (λ m kv, <[kv.1 := kv.2]> m) m entries !! k) ↔
    is_Some (m !! k) ∨ k ∈ map fst entries).
  { induction entries as [|[k' v] rest IH]; intros m; simpl.
    - rewrite elem_of_nil. tauto.
    - rewrite IH, elem_of_cons. destruct (decide (k' = k)) as [->|Hne].
      + rewrite lookup_insert_eq. intuition eauto.
      + rewrite lookup_insert_ne by done. intuition congruence. }
  rewrite G, lookup_empty. split; [intros [[? [=]]|]|]; auto.
Qed.

Section Client.
Context {AuthTokens Zod : Type}.
Context (getOperationsWithXLlm : OpenAPIDocument -> list Operation).
Context (jsonSchemaToZod : list ParameterObject -> Zod).
Context (approvalReply : list (Event AuthTokens) -> Operation -> Json -> Settled bool).
Context (endpointReply :
  list (Event AuthTokens) -> Operation -> Json -> AuthTokens -> Settled Json).

Local Abbreviation execute := (execute AuthTokens approvalReply endpointReply).
Local Abbreviation enforcedApproval :=
  (enforcedApproval AuthTokens approvalReply endpointReply).
Local Abbreviation toolsFromOpenAPI :=
  (toolsFromOpenAPI AuthTokens Zod getOperationsWithXLlm jsonSchemaToZod
     approvalReply endpointReply).

Lemma emitted_app {A} (c : Async AuthTokens A) log new :
  (c log).2 = log ++ new -> emitted c log = new.
Proof. intros H. unfold emitted. rewrite H. apply drop_app_length. Qed.

(** The three ways a call with a present [x-llm] block can go. *)
Lemma execute_straight op m tokens params log :
  x_llm op = Some m -> approval m ≠ Some PerCall ->
  execute op tokens params log =
    (endpointReply log op params tokens, log ++ [Fetched op params tokens]).
Proof.
  intros Hm Ha. unfold execute. rewrite Hm.
  destruct (decide _); [contradiction|reflexivity].
Qed.

Lemma execute_refused op m tokens params log :
  x_llm op = Some m -> approval m = Some PerCall ->
  approvalReply log op params = Resolved false ->
  execute op tokens params log = (Resolved denied, log ++ [Asked op params]).
Proof.
  intros Hm Ha Hr. unfold execute. rewrite Hm.
  destruct (decide _); [|contradiction].
  unfold bind, requestApproval. rewrite Hr. reflexivity.
Qed.

Lemma execute_gated op m tokens params log :
  x_llm op = Some m -> approval m = Some PerCall ->
  ∃ tail, (execute op tokens params log).2 = log ++ Asked op params :: tail ∧
          (existsb isFetched tail = true ->
           approvalReply log op params = Resolved true).
Proof.
  intros Hm Ha. unfold execute. rewrite Hm.
  destruct (decide _); [|contradiction].
  unfold bind, requestApproval.
  destruct (approvalReply log op params) as [[|]|err]; simpl.
  - exists [Fetched op params tokens]. rewrite <- app_assoc. auto.
  - exists []. split; [reflexivity|discriminate].
  - exists []. split; [reflexivity|discriminate].
Qed.

(** C2 (as amended): for an operation whose [x-llm] block declares an
    approval level, a call is held to exactly that site-declared level,
    whatever the user's preference: the consent prompt comes first
    exactly when the level is per-call, and then the endpoint is reached
    only after an approval.  So the enforced level is never below the
    site's, and a preference of "auto" does not turn a "per-call"
    operation into an automatic one. *)
Theorem site_approval_is_enforced (pref : Approval)
    (op : Operation) (m : XLlm) (a : Approval)
    (tokens : AuthTokens) (params : Json) (log : list (Event AuthTokens)) :
  x_llm op = Some m ->
  approval m = Some a ->
  enforcedApproval op tokens params log = a ∧
  approval_le a (enforcedApproval op tokens params log) ∧
  (pref = Auto -> a = PerCall ->
   enforcedApproval op tokens params log = PerCall) ∧
  (a = PerCall ->
   existsb isFetched (emitted (execute op tokens params) log) = true ->
   approvalReply log op params = Resolved true).
Proof.
  intros Hm Ha.
  assert (E : enforcedApproval op tokens params log = a).
  { unfold ToolsFromOpenAPI.enforcedApproval. destruct a.
    - rewrite (emitted_app _ log [Fetched op params tokens]); [reflexivity|].
      rewrite (execute_straight op m) by (done || congruence). reflexivity.
    - destruct (execute_gated op m tokens params log Hm Ha) as (tail & Ht & _).
      rewrite (emitted_app _ _ _ Ht). reflexivity. }
  rewrite E. repeat split; auto.
  - unfold approval_le. lia.
  - intros -> Hf.
    destruct (execute_gated op m tokens params log Hm Ha) as (tail & Ht & Hok).
    rewrite (emitted_app _ _ _ Ht) in Hf. simpl in Hf. auto.
Qed.

(** C3: when the consent decision for a call is deny-once or
    deny-always, [execute] resolves (it does not reject) with
    [{ denied: true }], and nothing but the prompt has happened: the
    endpoint is not called. *)
Theorem denial_is_a_result (op : Operation) (m : XLlm) (d : Decision)
    (tokens : AuthTokens) (params : Json) (log : list (Event AuthTokens)) :
  x_llm op = Some m ->
  approval m = Some PerCall ->
  approvalReply log op params = Resolved (approves d) ->
  d = DenyOnce ∨ d = DenyAlways ->
  execute op tokens params log = (Resolved denied, log ++ [Asked op params]).
Proof.
  intros Hm Ha Hr Hd. apply (execute_refused op m); auto.
  rewrite Hr. destruct Hd as [-> | ->]; reflexivity.
Qed.

(** C8 (as amended): the name of every tool [toolsFromOpenAPI]
    generates is the [operationId] of its operation and nothing else; the
    document's root name plays no part in it.  So the tools of two
    documents collide on a name exactly when both documents have an
    operation with that [operationId], whatever their root names. *)
Theorem tool_names_are_operation_ids (spec spec' : OpenAPIDocument)
    (tokens : AuthTokens) (n : string) :
  (is_Some (toolsFromOpenAPI spec tokens !! n) ↔
   ∃ op, op ∈ getOperationsWithXLlm spec ∧ operationId op = n) ∧
  (is_Some (toolsFromOpenAPI spec tokens !! n) ∧
   is_Some (toolsFromOpenAPI spec' tokens !! n) ↔
   ∃ op op', op ∈ getOperationsWithXLlm spec ∧ op' ∈ getOperationsWithXLlm spec' ∧
             operationId op = n ∧ operationId op' = n).
Proof.
  assert (Hname : ∀ doc, is_Some (toolsFromOpenAPI doc tokens !! n) ↔
                         ∃ op, op ∈ getOperationsWithXLlm doc ∧ operationId op = n).
  { intros doc. unfold ToolsFromOpenAPI.toolsFromOpenAPI.
    rewrite lookup_fromEntries, map_map. simpl.
    rewrite list_elem_of_fmap. split; intros (op & H1 & H2); eauto. }
  split; [apply Hname|]. rewrite !Hname. split.
  - intros [(op & ? & ?) (op' & ? & ?)]. exists op, op'. auto.
  - intros (op & op' & ? & ? & ? & ?). split; eauto.
Qed.
End Client.

Lemma site_approval_is_enforced_witness :
  enforcedApproval unit (fixedReply false) nullEndpoint deleteTask tt JNull [] = PerCall ∧
  approval_le PerCall
    (enforcedApproval unit (fixedReply false) nullEndpoint deleteTask tt JNull []) ∧
  (Auto = Auto -> PerCall = PerCall ->
   enforcedApproval unit (fixedReply false) nullEndpoint deleteTask tt JNull [] = PerCall) ∧
  (PerCall = PerCall ->
   existsb isFetched
     (emitted (execute unit (fixedReply false) nullEndpoint deleteTask tt JNull) []) = true ->
   fixedReply false [] deleteTask JNull = Resolved true).
Proof.
  apply (site_approval_is_enforced (fixedReply false) nullEndpoint Auto deleteTask
           {| enabled := Some true; approval := Some PerCall;
              blanketApprovalAllowed := Some false; destructive := Some true;
              rateLimit := None; hint := None; costIndicator := None |}
           PerCall tt JNull []).
  - reflexivity.
  - reflexivity.
Defined.

(** C2, as stated, fails: [listTasks] is declared "auto"; with a user
    preference of "per-call" the maximum of the two is "per-call", yet the
    call goes straight to the endpoint, without a prompt. *)
Lemma preference_does_not_raise_approval :
  (x_llm listTasks ≫= approval) = Some Auto ∧
  execute unit (fixedReply false) nullEndpoint listTasks tt JNull [] =
    (Resolved JNull, [Fetched listTasks JNull tt]) ∧
  enforcedApproval unit (fixedReply false) nullEndpoint listTasks tt JNull []
    ≠ approval_max Auto PerCall.
Proof. split; [reflexivity|]. split; [reflexivity|]. vm_compute. discriminate. Qed.

Lemma denial_is_a_result_witness :
  execute unit (fixedReply false) nullEndpoint deleteTask tt JNull [] =
    (Resolved denied, [] ++ [Asked deleteTask JNull]).
Proof.
  apply (denial_is_a_result (fixedReply false) nullEndpoint deleteTask
           {| enabled := Some true; approval := Some PerCall;
              blanketApprovalAllowed := Some false; destructive := Some true;
              rateLimit := None; hint := None; costIndicator := None |}
           DenyAlways tt JNull []).
  - reflexivity.
  - reflexivity.
  - reflexivity.
  - right. reflexivity.
Defined.

(** C8, as stated, fails: two documents whose roots declare different
    names both yield a tool called "listTasks". *)
Lemma tool_names_collide_across_roots :
  (name <$> root_x_llm recipeApp) = Some "RecipeApp" ∧
  (name <$> root_x_llm taskTracker) = Some "TaskTracker" ∧
  is_Some (toolsFromOpenAPI unit unit enabledOperations (λ _, tt)
             (fixedReply true) nullEndpoint recipeApp tt !! "listTasks") ∧
  is_Some (toolsFromOpenAPI unit unit enabledOperations (λ _, tt)
             (fixedReply true) nullEndpoint taskTracker tt !! "listTasks").
Proof.
  split; [reflexivity|]. split; [reflexivity|].
  split; eexists; vm_compute; reflexivity.
Qed.

End ToolsFromOpenAPIFacts.

Module FetchGuardFacts.
Import FetchGuard.

Section Guard.
Context {Net : Type}.
Context (resolve : Net -> string -> option Addr).
Context (exchange : Net -> Addr -> Url -> Request -> Reply * Net).
Context (allowList : list string) (maxRedirects : nat).

Local Abbreviation vet := (vet Net resolve allowList).
Local Abbreviation follow := (follow Net resolve exchange allowList).
Local Abbreviation fetchSafe := (fetchSafe Net resolve exchange allowList maxRedirects).
Local Abbreviation Hops := (Hops resolve exchange allowList).
Local Abbreviation allowListed := (allowListed allowList).

(** What passing the policy means for the address a request goes to. *)
Lemma vet_pass net url addr :
  vet net url = Pass addr ->
  resolve net (host url) = Some addr ∧
  (allowListed url = true ∨ (scheme url = "https" ∧ nonPublic addr = false)).
Proof.
  unfold FetchGuard.vet. destruct (allowListed url) eqn:Hal.
  - destruct (resolve net (host url)); intros [=]; subst; auto.
  - destruct (bool_decide (scheme url = "https")) eqn:Hs; simpl; [|discriminate].
    apply bool_decide_eq_true in Hs.
    destruct (resolve net (host url)) as [a|]; [|discriminate].
    destruct (nonPublic a) eqn:Hn; intros [=]; subst; auto.
Qed.

(** A blocked hop is a non-HTTPS target or a non-public address, and is
    not allow-listed. *)
Lemma vet_block net url :
  vet net url = Block ↔
  allowListed url = false ∧
  (scheme url ≠ "https" ∨
   ∃ addr, resolve net (host url) = Some addr ∧ nonPublic addr = true).
Proof.
  unfold FetchGuard.vet. destruct (allowListed url).
  - split; [destruct (resolve net (host url)); discriminate|intros [[=] _]].
  - destruct (bool_decide (scheme url = "https")) eqn:Hs; simpl.
    + apply bool_decide_eq_true in Hs.
      destruct (resolve net (host url)) as [a|].
      * destruct (nonPublic a) eqn:Hn; split; eauto; try discriminate.
        intros (_ & [?|(a' & [= <-] & ?)]); congruence.
      * split; [discriminate|]. intros (_ & [?|(a' & [=] & ?)]); congruence.
    + apply bool_decide_eq_false in Hs. split; auto.
Qed.

Lemma follow_delivered_vetted fuel url req net u a :
  (u, a) ∈ delivered (follow fuel url req net) ->
  allowListed u = true ∨ (scheme u = "https" ∧ nonPublic a = false).
Proof.
  revert url net.
  induction fuel as [|fuel IH]; intros url net Hin; simpl in Hin;
    destruct (vet net url) as [addr| |] eqn:Hv; simpl in Hin;
    try (apply elem_of_nil in Hin; contradiction);
    destruct (exchange net addr url req) as [[el r|el next|] net1];
    try destruct (timeoutOf req <=? el)%Z; simpl in Hin;
    rewrite ?elem_of_cons, ?elem_of_nil in Hin;
    repeat match goal with
           | Hor : _ ∨ _ |- _ => destruct Hor
           | Hf : False |- _ => destruct Hf
           | Heq : (_, _) = (_, _) |- _ => injection Heq as -> ->
           end;
    try (by destruct (vet_pass _ _ _ Hv)); eauto.
Qed.

Lemma follow_blocked_hop req net url k net' url' :
  Hops req net url k net' url' ->
  vet net' url' = Block ->
  ∀ fuel, k ≤ fuel ->
  result (follow fuel url req net) = inl SsrfBlocked ∧
  after (follow fuel url req net) = net' ∧
  length (delivered (follow fuel url req net)) = k.
Proof.
  induction 1 as [net url|net url addr el next net1 k net2 url2 Hv Hx Hel Hh IH];
    intros Hb fuel Hfuel.
  - destruct fuel; simpl; rewrite Hb; auto.
  - destruct fuel as [|fuel]; [lia|]. simpl. rewrite Hv, Hx.
    destruct (Z.leb_spec (timeoutOf req) el); [lia|].
    destruct (IH Hb fuel) as (? & ? & ?); [lia|]. simpl. auto.
Qed.

(** C6: every request [fetchSafe] puts on the wire, at the initial URL
    or at any redirect hop, has passed the same policy: it goes to an
    allow-listed target, or over HTTPS to an address that is not
    loopback, link-local or private.  And when a chain of redirects
    within the limit reaches a hop, the final one included, that
    resolves to a loopback, link-local or private address and is not
    allow-listed, the fetch fails with [SsrfBlocked], whatever the
    initial URL was; only the hops before it were sent a request, and
    no request goes to the blocked address. *)
Theorem redirect_hops_are_vetted (url : Url) (req : Request) (net : Net) :
  (∀ u a, (u, a) ∈ delivered (fetchSafe url req net) ->
     allowListed u = true ∨ (scheme u = "https" ∧ nonPublic a = false)) ∧
  (∀ k net' url' addr,
     Hops req net url k net' url' ->
     k ≤ maxRedirects ->
     allowListed url' = false ->
     resolve net' (host url') = Some addr ->
     isLoopback addr || isLinkLocal addr || isPrivate addr = true ->
     result (fetchSafe url req net) = inl SsrfBlocked ∧
     length (delivered (fetchSafe url req net)) = k ∧
     (url', addr) ∉ delivered (fetchSafe url req net)).
Proof.
  split.
  - intros u a. apply follow_delivered_vetted.
  - intros k net' url' addr Hh Hk Hal Hres Hnp.
    assert (Hb : vet net' url' = Block).
    { apply vet_block. split; [exact Hal|]. right. exists addr. auto. }
    destruct (follow_blocked_hop req net url k net' url' Hh Hb maxRedirects Hk)
      as (? & _ & ?).
    repeat split; auto.
    intros Hin. apply follow_delivered_vetted in Hin.
    unfold nonPublic in Hin. destruct Hin as [?|[_ ?]]; congruence.
Qed.
End Guard.

Lemma redirect_hops_are_vetted_witness :
  result (fetchSafe unit exampleResolve exampleExchange [] 5 appUrl getRequest tt)
    = inl SsrfBlocked ∧
  length (delivered
    (fetchSafe unit exampleResolve exampleExchange [] 5 appUrl getRequest tt)) = 1 ∧
  (metadataUrl, ipv4 169 254 169 254) ∉
    delivered (fetchSafe unit exampleResolve exampleExchange [] 5 appUrl getRequest tt).
Proof.
  apply (redirect_hops_are_vetted exampleResolve exampleExchange [] 5
           appUrl getRequest tt) with (net' := tt).
  - apply (hops_next unit exampleResolve exampleExchange [] getRequest
             tt appUrl (ipv4 93 184 216 34) 5 metadataUrl tt 0 tt metadataUrl).
    + reflexivity.
    + reflexivity.
    + reflexivity.
    + apply hops_here.
  - lia.
  - reflexivity.
  - reflexivity.
  - reflexivity.
Defined.

End FetchGuardFacts.

Module SpecParserFacts.
Import OpenAPI SpecParser.

Lemma eligible_Some rootMeta p m op d :
  eligible rootMeta p m op = Some d ↔
  ∃ x, x_llm op = Some x ∧ enabled x = Some true ∧ d = describe rootMeta p m op x.
Proof.
  unfold eligible. destruct (x_llm op) as [x|].
  - destruct (enabled x) as [[|]|] eqn:E; split;
      first [ by intros [= <-]; eauto
            | discriminate
            | intros (x' & [= <-] & He & ->); congruence ].
  - split; [discriminate|]. intros (x & [=] & _).
Qed.

Lemma eligible_enabledTrue rootMeta p m op :
  is_Some (eligible rootMeta p m op) ↔ enabledTrue op = true.
Proof.
  unfold enabledTrue, eligible. rewrite bool_decide_eq_true.
  destruct (x_llm op) as [x|]; simpl.
  - destruct (enabled x) as [[|]|]; split; intros H; eauto;
      try discriminate; destruct H; discriminate.
  - split; [intros [? [=]]|discriminate].
Qed.

Lemma eligible_operationId rootMeta p m op d :
  eligible rootMeta p m op = Some d -> operationId d = OpenAPI.operationId op.
Proof. rewrite eligible_Some. intros (x & _ & _ & ->). reflexivity. Qed.

(** The nested walk visits the entries of the document in order. *)
Lemma walk_entries rootMeta items :
  walk rootMeta items =
  flat_map (λ e, option_list (eligible rootMeta e.1.1 e.1.2 e.2))
    (flat_map (λ item, map (λ mo, (item.1, mo.1, mo.2)) item.2) items).
Proof.
  unfold walk. induction items as [|[p methods] rest IH]; simpl; [reflexivity|].
  rewrite flat_map_app, <- IH. f_equal.
  induction methods as [|[m op] ms IHm]; simpl; [reflexivity|].
  by rewrite IHm.
Qed.

Lemma walk_elem_of rootMeta doc d :
  d ∈ walk rootMeta (paths doc) ↔
  ∃ p m op x, (p, m, op) ∈ entries doc ∧ x_llm op = Some x ∧
              enabled x = Some true ∧ d = describe rootMeta p m op x.
Proof.
  rewrite walk_entries. fold (entries doc).
  rewrite list_elem_of_In, in_flat_map. split.
  - intros ([[p m] op] & Hin & Hd). simpl in Hd.
    destruct (eligible rootMeta p m op) as [d'|] eqn:He; simpl in Hd; [|contradiction].
    destruct Hd as [<-|[]]. apply eligible_Some in He as (x & ? & ? & ?).
    exists p, m, op, x. rewrite list_elem_of_In. auto.
  - intros (p & m & op & x & Hin & Hx & He & ->).
    exists (p, m, op). rewrite <- list_elem_of_In. split; [exact Hin|]. simpl.
    assert (E : eligible rootMeta p m op = Some (describe rootMeta p m op x))
      by (apply eligible_Some; eauto).
    rewrite E. simpl. auto.
Qed.

Lemma walk_operationIds rootMeta doc :
  map operationId (walk rootMeta (paths doc)) =
  map (λ e, OpenAPI.operationId e.2)
      (filter (λ e, enabledTrue e.2 = true) (entries doc)).
Proof.
  rewrite walk_entries. fold (entries doc).
  induction (entries doc) as [|[[p m] op] rest IH]; simpl; [reflexivity|].
  rewrite map_app, IH, filter_cons. simpl.
  destruct (eligible rootMeta p m op) as [d|] eqn:He.
  - assert (Ht : enabledTrue op = true)
      by (apply (proj1 (eligible_enabledTrue rootMeta p m op)); eauto).
    rewrite decide_True by done. simpl.
    by rewrite (eligible_operationId _ _ _ _ _ He).
  - assert (Hf : enabledTrue op ≠ true).
    { intros Ht. apply (proj2 (eligible_enabledTrue rootMeta p m op)) in Ht.
      rewrite He in Ht. by destruct Ht. }
    rewrite decide_False by done. reflexivity.
Qed.

Section Parser.
Context {Net : Type}.
Context (resolve : Net -> string -> option FetchGuard.Addr).
Context (exchange :
  Net -> FetchGuard.Addr -> FetchGuard.Url -> FetchGuard.Request ->
  FetchGuard.Reply * Net).
Context (allowList : list string) (maxRedirects : nat).
Context (decodeDocument : Json -> option OpenAPIDocument).
Context (supportedVersion : string -> bool).
Context (namespaced : string -> string -> string).

Local Abbreviation parseSpec :=
  (parseSpec Net resolve exchange allowList maxRedirects decodeDocument
     supportedVersion).

(** C1: when [parseSpec] succeeds on a document, a descriptor is in
    [ParsedSpec.operations] if and only if it describes an operation of
    the document whose own [x-llm] block sets [enabled] to [true]; the
    operations kept are, in order, exactly the enabled ones, so one
    whose block lacks the flag, or that has no block, contributes
    nothing; and the tools generated are one per descriptor kept. *)
Theorem only_enabled_operations_are_parsed
    (specUrl : FetchGuard.Url) (net : Net)
    (response : FetchGuard.Response) (doc : OpenAPIDocument) (spec : ParsedSpec) :
  FetchGuard.result (parseSpec specUrl net).2 = inr response ->
  decodeDocument (FetchGuard.payload response) = Some doc ->
  (parseSpec specUrl net).1 = inr spec ->
  root_x_llm doc = Some (root spec) ∧
  (∀ d, d ∈ operations spec ↔
     ∃ p m op x, (p, m, op) ∈ entries doc ∧ x_llm op = Some x ∧
                 enabled x = Some true ∧ d = describe (root spec) p m op x) ∧
  map operationId (operations spec) =
    map (λ e, OpenAPI.operationId e.2)
        (filter (λ e, (x_llm e.2 ≫= enabled) = Some true) (entries doc)) ∧
  (∀ p m op, (p, m, op) ∈ entries doc ->
     (x_llm op ≫= enabled) ≠ Some true -> eligible (root spec) p m op = None) ∧
  map ToolGenerator.descriptor (ToolGenerator.generateTools namespaced spec) =
    operations spec.
Proof.
  unfold SpecParser.parseSpec. simpl. intros Hf Hd. rewrite Hf, Hd.
  unfold parseDocument. destruct (root_x_llm doc) as [rootMeta|]; [|discriminate].
  destruct (supportedVersion (version rootMeta)); [|discriminate].
  intros [= <-]. simpl. split; [reflexivity|]. split; [|split; [|split]].
  - intros d. apply walk_elem_of.
  - rewrite walk_operationIds. f_equal. apply list_filter_iff.
    intros e. unfold enabledTrue. by rewrite bool_decide_eq_true.
  - intros p m op _ Hne.
    destruct (eligible rootMeta p m op) eqn:He; [|reflexivity].
    exfalso. apply Hne. apply (proj1 (bool_decide_eq_true _)).
    apply (proj1 (eligible_enabledTrue rootMeta p m op)). eauto.
  - unfold ToolGenerator.generateTools. rewrite map_map. simpl. apply map_id.
Qed.
End Parser.

Lemma only_enabled_operations_are_parsed_witness :
  map operationId (walk ToolGenerator.taskTrackerRoot (paths taskTracker)) =
    ["listTasks"; "deleteTask"] ∧
  eligible ToolGenerator.taskTrackerRoot "/export" "get" exportTasks = None ∧
  eligible ToolGenerator.taskTrackerRoot "/health" "get" health = None.
Proof.
  destruct (only_enabled_operations_are_parsed
              ToolGenerator.openResolve ToolGenerator.openExchange [] 5
              (λ _, Some taskTracker) (λ _, true) (λ r o, r +:+ "_" +:+ o)
              FetchGuard.appUrl tt
              {| FetchGuard.status := 200; FetchGuard.payload := JNull |}
              taskTracker
              {| root := ToolGenerator.taskTrackerRoot;
                 operations := walk ToolGenerator.taskTrackerRoot (paths taskTracker) |})
    as (_ & _ & Hids & Hout & _).
  - reflexivity.
  - reflexivity.
  - reflexivity.
  - split; [exact Hids|]. split.
    + apply (Hout "/export" "get" exportTasks); [|discriminate].
      do 2 apply list_elem_of_further. apply list_elem_of_here.
    + apply (Hout "/health" "get" health); [|discriminate].
      do 3 apply list_elem_of_further. apply list_elem_of_here.
Defined.

End SpecParserFacts.

Module ToolGeneratorFacts.
Import SpecParser ToolGenerator.

Section Host.
Context {Net : Type}.
Context (resolve : Net -> string -> option FetchGuard.Addr).
Context (exchange :
  Net -> FetchGuard.Addr -> FetchGuard.Url -> FetchGuard.Request ->
  FetchGuard.Reply * Net).
Context (allowList : list string) (maxRedirects : nat).
Context (consent :
  list (ApprovalRequest * option Decision) -> ApprovalRequest -> option Decision).
Context (validate : list OpenAPI.Property -> Json -> list string).
Context (buildRequest :
  FetchGuard.Url -> OperationDescriptor -> Json -> FetchGuard.Url * FetchGuard.Request).
Context (windowMillis : string -> Z).
Context (refreshToken : Net -> string -> option string * Net).

Local Abbreviation requestApproval := (requestApproval Net consent).
Local Abbreviation asked := (asked Net consent).
Local Abbreviation ConsentStep := (ConsentStep Net consent).
Local Abbreviation gate := (gate Net consent).
Local Abbreviation refill := (refill windowMillis).
Local Abbreviation throttle := (throttle Net windowMillis).
Local Abbreviation send := (send Net resolve exchange allowList maxRedirects).
Local Abbreviation call :=
  (call Net resolve exchange allowList maxRedirects buildRequest refreshToken).
Local Abbreviation invoke :=
  (invoke Net resolve exchange allowList maxRedirects consent validate buildRequest
     windowMillis refreshToken).
Local Abbreviation run :=
  (run Net resolve exchange allowList maxRedirects consent validate buildRequest
     windowMillis refreshToken).

(** *** The mediator *)

Lemma requestApproval_standing op ps (h : Host Net) s :
  standing h !! operationId op = Some s ->
  requestApproval op ps h = (decisionOf s, h).
Proof.
  intros Hs. unfold ToolGenerator.requestApproval.
  unfold standing in Hs. rewrite Hs. reflexivity.
Qed.

Lemma requestApproval_frame op ps (h : Host Net) :
  net (requestApproval op ps h).2 = net h ∧
  wire (requestApproval op ps h).2 = wire h ∧
  buckets (requestApproval op ps h).2 = buckets h.
Proof.
  unfold ToolGenerator.requestApproval.
  destruct (standingDecisions (conn h) !! operationId op); [auto|].
  destruct (consent _ _) as [d|]; [|auto].
  destruct (standingOf d); [|auto].
  destruct (blanketApprovalAllowed op); auto.
Qed.

Lemma requestApproval_step op ps (h : Host Net) :
  ConsentStep op ps h (requestApproval op ps h).2.
Proof.
  unfold ToolGenerator.ConsentStep, ToolGenerator.requestApproval,
    ToolGenerator.asked, standing.
  destruct (standingDecisions (conn h) !! operationId op) eqn:Hs; [left; auto|].
  right. split; [reflexivity|].
  destruct (consent _ _) as [d|] eqn:Hc; simpl; [|auto].
  destruct (standingOf d) as [s|] eqn:Hd; simpl; [|auto].
  destruct (blanketApprovalAllowed op) eqn:Hb; simpl; [|auto].
  split; [reflexivity|]. right. exists d, s. auto.
Qed.

Lemma gate_frame op pref ps (h : Host Net) :
  net (gate op pref ps h).2 = net h ∧
  wire (gate op pref ps h).2 = wire h ∧
  buckets (gate op pref ps h).2 = buckets h.
Proof.
  unfold ToolGenerator.gate. destruct (effectiveApproval op pref); [auto|].
  pose proof (requestApproval_frame op ps h) as H.
  destruct (requestApproval op ps h). exact H.
Qed.

Lemma gate_step op pref ps (h : Host Net) :
  ConsentStep op ps h (gate op pref ps h).2.
Proof.
  unfold ToolGenerator.gate. destruct (effectiveApproval op pref).
  - left. auto.
  - pose proof (requestApproval_step op ps h) as H.
    destruct (requestApproval op ps h). exact H.
Qed.

(** *** The limiter and the call leave prompts and standing decisions alone *)

Lemma throttle_frame op now (h : Host Net) :
  prompts (throttle op now h).2 = prompts h ∧
  standing (throttle op now h).2 = standing h ∧
  net (throttle op now h).2 = net h ∧
  wire (throttle op now h).2 = wire h.
Proof.
  unfold ToolGenerator.throttle. destruct (rateLimit op); [|auto].
  destruct (0 <? _)%Z; auto.
Qed.

Lemma send_frame url req (h : Host Net) :
  prompts (send url req h).2 = prompts h ∧ conn (send url req h).2 = conn h.
Proof. auto. Qed.

Lemma call_frame op ps (h : Host Net) :
  prompts (call op ps h).2 = prompts h ∧
  standing (call op ps h).2 = standing h ∧
  buckets (call op ps h).2 = buckets h.
Proof.
  unfold ToolGenerator.call, ToolGenerator.send.
  destruct (buildRequest _ op ps) as [url req].
  repeat (case_match; simpl; auto).
Qed.

Lemma invoke_step op pref ps now (h : Host Net) :
  ConsentStep op ps h (invoke op pref ps now h).2.
Proof.
  unfold ToolGenerator.invoke.
  destruct (validate (inputSchema op) ps); [|left; auto].
  pose proof (gate_step op pref ps h) as Hg.
  destruct (gate op pref ps h) as [go h1]. simpl in Hg.
  destruct go; [|exact Hg].
  pose proof (throttle_frame op now h1) as (Hp & Hs & _).
  destruct (throttle op now h1) as [room h2]. simpl in Hp, Hs.
  assert (Hstep : ConsentStep op ps h h2).
  { unfold ToolGenerator.ConsentStep in *. rewrite Hp, Hs. exact Hg. }
  destruct room; [|exact Hstep].
  pose proof (call_frame op ps h2) as (Hp' & Hs' & _).
  unfold ToolGenerator.ConsentStep in *. rewrite Hp', Hs'. exact Hstep.
Qed.

Lemma run_cons c rest (h : Host Net) :
  (run (c :: rest) h).2 =
  (run rest (invoke (callOp c) (callPref c) (callParams c) (callTime c) h).2).2.
Proof.
  simpl. destruct (invoke _ _ _ _ h) as [r h1]. simpl.
  destruct (run rest h1). reflexivity.
Qed.

(** A standing entry, once there, is never overwritten or removed, and the
    operations prompted for are those without one. *)
Lemma run_keeps_standing calls (h : Host Net) k s :
  standing h !! k = Some s ->
  ∃ new, prompts (run calls h).2 = prompts h ++ new ∧
         Forall (λ e, operationId (operation e.1) ≠ k) new ∧
         standing (run calls h).2 !! k = Some s.
Proof.
  revert h. induction calls as [|c rest IH]; intros h Hk.
  - exists []. simpl. rewrite app_nil_r. auto.
  - rewrite run_cons.
    pose proof (invoke_step (callOp c) (callPref c) (callParams c)
                  (callTime c) h) as Hstep.
    set (h1 := (invoke _ _ _ _ h).2) in *.
    destruct Hstep as [[Hp Hs]|(Hnone & Hp & Hs)].
    + destruct (IH h1) as (new & Hn & Hall & Hk'); [by rewrite Hs|].
      exists new. rewrite Hn, Hp. auto.
    + assert (Hne : operationId (callOp c) ≠ k) by congruence.
      destruct (IH h1) as (new & Hn & Hall & Hk').
      { destruct Hs as [->|(d & s' & _ & _ & _ & ->)]; [exact Hk|].
        by rewrite lookup_insert_ne. }
      exists (asked (callOp c) (callParams c) h :: new).
      rewrite Hn, Hp, <- app_assoc. simpl. split; [reflexivity|].
      split; [|exact Hk']. constructor; [exact Hne|exact Hall].
Qed.

(** Where the standing decisions at the end of a series of calls come
    from. *)
Lemma run_standing_origin calls (h : Host Net) :
  ∃ new, prompts (run calls h).2 = prompts h ++ new ∧
    ∀ k s, standing (run calls h).2 !! k = Some s ->
      standing h !! k = Some s ∨
      ∃ req d, (req, Some d) ∈ new ∧ operationId (operation req) = k ∧
               blanketApprovalAllowed (operation req) = true ∧
               standingOf d = Some s.
Proof.
  revert h. induction calls as [|c rest IH]; intros h.
  - exists []. simpl. rewrite app_nil_r. auto.
  - rewrite run_cons.
    pose proof (invoke_step (callOp c) (callPref c) (callParams c)
                  (callTime c) h) as Hstep.
    set (h1 := (invoke _ _ _ _ h).2) in *.
    destruct (IH h1) as (new & Hn & Horigin).
    destruct Hstep as [[Hp Hs]|(Hnone & Hp & Hs)].
    + exists new. rewrite Hn, Hp. split; [reflexivity|].
      intros k s Hk. rewrite <- Hs. auto.
    + exists (asked (callOp c) (callParams c) h :: new).
      rewrite Hn, Hp, <- app_assoc. split; [reflexivity|].
      intros k s Hk. destruct (Horigin k s Hk) as [Hk1|(req & d & Hin & ?)].
      * destruct Hs as [Hs|(d & s' & Hd & Hso & Hb & Hs)].
        -- left. by rewrite <- Hs.
        -- rewrite Hs in Hk1. destruct (decide (operationId (callOp c) = k)) as [<-|Hne].
           ++ rewrite lookup_insert_eq in Hk1. injection Hk1 as <-.
              right. exists (asked (callOp c) (callParams c) h).1, d.
              split; [|auto].
              rewrite <- Hd. destruct (asked _ _ h). simpl. apply list_elem_of_here.
           ++ rewrite lookup_insert_ne in Hk1 by done. auto.
      * right. exists req, d. split; [|auto]. by apply list_elem_of_further.
Qed.

(** C4: once [standingDecisions] holds an always-allow entry for O's
    [operationId], whatever is invoked on the connection afterwards, in
    whatever order, the entry stays, no consent prompt for O is ever put to
    the callback, and [requestApproval] for O resolves at once to an
    approval from the standing entry, leaving the host as it is. *)
Theorem standing_allow_skips_consent
    (calls : list Call) (h : Host Net) (O : OperationDescriptor) :
  standing h !! operationId O = Some AlwaysAllow ->
  ∃ new, prompts (run calls h).2 = prompts h ++ new ∧
         Forall (λ e, operationId (operation e.1) ≠ operationId O) new ∧
         standing (run calls h).2 !! operationId O = Some AlwaysAllow ∧
         ∀ ps, requestApproval O ps (run calls h).2 = (ApproveAlways, (run calls h).2).
Proof.
  intros Hk.
  destruct (run_keeps_standing calls h _ _ Hk) as (new & Hn & Hall & Hk').
  exists new. repeat split; auto.
  intros ps. apply (requestApproval_standing O ps _ AlwaysAllow Hk').
Qed.

(** C5: every entry of [standingDecisions] at the end of a series of calls
    was there at the start or was written for a consent prompt of that
    series whose operation has [blanketApprovalAllowed] true and whose
    answer was approve-always or deny-always, the entry being that answer.
    And a call of an operation with [blanketApprovalAllowed] false leaves
    [standingDecisions] unchanged whatever the decision: after an
    approve-always answer to its prompt there is still no entry for it. *)
Theorem standing_entries_need_blanket_always (calls : list Call) (h : Host Net) :
  (∀ k s, standing (run calls h).2 !! k = Some s ->
     standing h !! k = Some s ∨
     ∃ req d,
       (req, Some d) ∈ drop (length (prompts h)) (prompts (run calls h).2) ∧
       operationId (operation req) = k ∧
       blanketApprovalAllowed (operation req) = true ∧
       (d = ApproveAlways ∨ d = DenyAlways) ∧
       standingOf d = Some s) ∧
  (∀ op pref ps now,
     blanketApprovalAllowed op = false ->
     standing (invoke op pref ps now h).2 = standing h ∧
     standing (requestApproval op ps h).2 = standing h ∧
     (standing h !! operationId op = None ->
      (asked op ps h).2 = Some ApproveAlways ->
      requestApproval op ps h = (ApproveAlways, prompted (asked op ps h) h) ∧
      standing (requestApproval op ps h).2 !! operationId op = None)).
Proof.
  split.
  - destruct (run_standing_origin calls h) as (new & Hn & Horigin).
    rewrite Hn, drop_app_length. intros k s Hk.
    destruct (Horigin k s Hk) as [?|(req & d & ? & ? & ? & Hd)]; [auto|].
    right. exists req, d. repeat split; auto.
    destruct d; simpl in Hd; auto; discriminate.
  - intros op pref ps now Hb.
    assert (Hstep : ∀ h', ConsentStep op ps h h' -> standing h' = standing h).
    { intros h' [[_ ?]|(_ & _ & [?|(d & s & _ & _ & ? & _)])]; auto; congruence. }
    split; [apply Hstep, invoke_step|].
    split; [apply Hstep, requestApproval_step|].
    intros Hnone Hans.
    assert (E : requestApproval op ps h = (ApproveAlways, prompted (asked op ps h) h)).
    { unfold ToolGenerator.requestApproval. unfold standing in Hnone.
      rewrite Hnone. unfold ToolGenerator.asked in Hans. simpl in Hans.
      unfold ToolGenerator.asked. rewrite Hans. simpl. rewrite Hb. reflexivity. }
    split; [exact E|]. rewrite E. exact Hnone.
Qed.

(** *** The limiter *)

Lemma follow_not_limited fuel url req n :
  FetchGuard.result
    (FetchGuard.follow Net resolve exchange allowList fuel url req n)
  ≠ inl RateLimited.
Proof.
  revert url n. induction fuel as [|fuel IH]; intros url n; simpl;
    repeat (case_match; simpl); try discriminate; apply IH.
Qed.

Lemma send_not_limited url req (h : Host Net) : (send url req h).1 ≠ inl RateLimited.
Proof. apply follow_not_limited. Qed.

Lemma call_not_limited op ps (h : Host Net) : (call op ps h).1 ≠ inl RateLimited.
Proof.
  unfold ToolGenerator.call. destruct (buildRequest _ op ps) as [url req].
  pose proof (send_not_limited url req h) as K1.
  destruct (send url req h) as [[e|response] h1]; simpl in *; [congruence|].
  destruct (credential (conn h1)); [discriminate|].
  destruct (unauthorized response); [|discriminate].
  destruct (refreshToken (net h1) token) as [[fresh|] net2]; [|discriminate].
  match goal with |- context [FetchGuard.fetchSafe _ _ _ _ _ url ?req2 net2] =>
    pose proof (follow_not_limited maxRedirects url req2 net2) as K2;
    fold (FetchGuard.fetchSafe Net resolve exchange allowList maxRedirects
            url req2 net2) in K2;
    destruct (FetchGuard.result
                (FetchGuard.fetchSafe Net resolve exchange allowList maxRedirects
                   url req2 net2)) as [e|again] end; simpl; [congruence|].
  destruct (unauthorized again); discriminate.
Qed.

(** A user who approves whatever is asked about [op] is never the reason a
    call of [op] stops, unless an always-deny entry stands. *)
Lemma gate_passes op pref ps (h : Host Net) :
  (∀ hist req, operation req = op ->
     ∃ d, consent hist req = Some d ∧ approves d = true) ->
  standing h !! operationId op ≠ Some AlwaysDeny ->
  (gate op pref ps h).1 = true ∧
  standing (gate op pref ps h).2 !! operationId op ≠ Some AlwaysDeny.
Proof.
  intros Hyes Hs. unfold ToolGenerator.gate.
  destruct (effectiveApproval op pref); [auto|].
  unfold ToolGenerator.requestApproval. unfold standing in Hs.
  destruct (standingDecisions (conn h) !! operationId op) as [[|]|] eqn:E;
    [simpl; unfold standing; rewrite E; split; [reflexivity|discriminate]
    |congruence|].
  destruct (Hyes (prompts h)
              {| operation := op; params := ps; isDestructive := destructive op |}
              eq_refl) as (d & Hc & Hd).
  cbv zeta. rewrite Hc.
  destruct d; try discriminate; simpl.
  - unfold standing. simpl. rewrite E. auto.
  - destruct (blanketApprovalAllowed op); simpl; unfold standing; simpl.
    + rewrite lookup_insert_eq. auto.
    + rewrite E. auto.
Qed.

Lemma refill_within limit now b :
  (now - windowStart b < windowMillis (OpenAPI.window limit))%Z ->
  refill limit now (Some b) = b.
Proof.
  intros H. unfold ToolGenerator.refill.
  destruct (Z.leb_spec (windowMillis (OpenAPI.window limit)) (now - windowStart b));
    [lia|reflexivity].
Qed.

Lemma invoke_takes_token op pref ps now (h : Host Net) limit :
  rateLimit op = Some limit ->
  validate (inputSchema op) ps = [] ->
  (∀ hist req, operation req = op ->
     ∃ d, consent hist req = Some d ∧ approves d = true) ->
  standing h !! operationId op ≠ Some AlwaysDeny ->
  (0 < tokens (refill limit now (buckets h !! operationId op)))%Z ->
  ∃ r h', invoke op pref ps now h = (r, h') ∧
    r ≠ inl RateLimited ∧
    buckets h' !! operationId op =
      Some {| tokens := tokens (refill limit now (buckets h !! operationId op)) - 1;
              windowStart :=
                windowStart (refill limit now (buckets h !! operationId op)) |} ∧
    standing h' !! operationId op ≠ Some AlwaysDeny.
Proof.
  intros Hlimit Hvalid Hyes Hs Hroom. unfold ToolGenerator.invoke. rewrite Hvalid.
  destruct (gate_passes op pref ps h Hyes Hs) as [Hgo Hs1].
  destruct (gate_frame op pref ps h) as (_ & _ & Hb1).
  destruct (gate op pref ps h) as [go h1]. simpl in *. subst go.
  unfold ToolGenerator.throttle. rewrite Hlimit.
  unfold buckets in Hb1, Hroom |- *. rewrite Hb1.
  destruct (Z.ltb_spec 0 (tokens (refill limit now
              (rateLimiterState (conn h) !! operationId op)))); [|lia].
  match goal with |- context [call op ps ?h2] =>
    pose proof (call_not_limited op ps h2) as Hk;
    pose proof (call_frame op ps h2) as (_ & Hcs & Hcb);
    destruct (call op ps h2) as [r h'] end.
  exists r, h'. simpl in *. split; [reflexivity|]. split; [exact Hk|].
  unfold buckets, standing in *. simpl in *. rewrite Hcb, Hcs.
  rewrite lookup_insert_eq. auto.
Qed.

Lemma invoke_exhausted op pref ps now (h : Host Net) limit :
  rateLimit op = Some limit ->
  validate (inputSchema op) ps = [] ->
  (∀ hist req, operation req = op ->
     ∃ d, consent hist req = Some d ∧ approves d = true) ->
  standing h !! operationId op ≠ Some AlwaysDeny ->
  (tokens (refill limit now (buckets h !! operationId op)) ≤ 0)%Z ->
  ∃ h', invoke op pref ps now h = (inl RateLimited, h') ∧
        wire h' = wire h ∧ net h' = net h.
Proof.
  intros Hlimit Hvalid Hyes Hs Hnone. unfold ToolGenerator.invoke. rewrite Hvalid.
  destruct (gate_passes op pref ps h Hyes Hs) as [Hgo _].
  destruct (gate_frame op pref ps h) as (Hn1 & Hw1 & Hb1).
  destruct (gate op pref ps h) as [go h1]. simpl in *. subst go.
  unfold ToolGenerator.throttle. rewrite Hlimit.
  unfold buckets in Hb1, Hnone |- *. rewrite Hb1.
  destruct (Z.ltb_spec 0 (tokens (refill limit now
              (rateLimiterState (conn h) !! operationId op)))); [lia|].
  eexists. split; [reflexivity|]. simpl. auto.
Qed.

(** C7: for an operation configured with [rateLimit {max: 3, window: "1m"}]
    and a fresh bucket, three calls that get as far as the limiter (valid
    parameters, not denied), the later two within the window opened by the
    first, each take a token and go on to the call; a fourth call before
    that window has elapsed fails with [RateLimited], and it leaves the
    network and the list of requests sent untouched. *)
Theorem fourth_call_is_rate_limited
    (op : OperationDescriptor) (pref : Approval) (p1 p2 p3 p4 : Json)
    (t1 t2 t3 t4 : Z) (h : Host Net) :
  rateLimit op = Some {| OpenAPI.max := 3; OpenAPI.window := "1m" |} ->
  buckets h !! operationId op = None ->
  Forall (λ ps, validate (inputSchema op) ps = []) [p1; p2; p3; p4] ->
  (∀ hist req, operation req = op ->
     ∃ d, consent hist req = Some d ∧ approves d = true) ->
  standing h !! operationId op ≠ Some AlwaysDeny ->
  (t2 - t1 < windowMillis "1m")%Z ->
  (t3 - t1 < windowMillis "1m")%Z ->
  (t4 - t1 < windowMillis "1m")%Z ->
  ∃ r1 r2 r3 h3 h4,
    run [ {| callOp := op; callPref := pref; callParams := p1; callTime := t1 |};
          {| callOp := op; callPref := pref; callParams := p2; callTime := t2 |};
          {| callOp := op; callPref := pref; callParams := p3; callTime := t3 |} ] h
      = ([r1; r2; r3], h3) ∧
    r1 ≠ inl RateLimited ∧ r2 ≠ inl RateLimited ∧ r3 ≠ inl RateLimited ∧
    buckets h3 !! operationId op = Some {| tokens := 0; windowStart := t1 |} ∧
    invoke op pref p4 t4 h3 = (inl RateLimited, h4) ∧
    wire h4 = wire h3 ∧ net h4 = net h3.
Proof.
  intros Hlimit Hfresh Hvalid Hyes Hs H2 H3 H4.
  apply Forall_cons in Hvalid as [V1 Hvalid].
  apply Forall_cons in Hvalid as [V2 Hvalid].
  apply Forall_cons in Hvalid as [V3 Hvalid].
  apply Forall_cons in Hvalid as [V4 _].
  destruct (invoke_takes_token op pref p1 t1 h _ Hlimit V1 Hyes Hs)
    as (r1 & h1 & E1 & N1 & B1 & S1).
  { rewrite Hfresh. simpl. lia. }
  rewrite Hfresh in B1. simpl in B1.
  destruct (invoke_takes_token op pref p2 t2 h1 _ Hlimit V2 Hyes S1)
    as (r2 & h2 & E2 & N2 & B2 & S2).
  { rewrite B1, refill_within; simpl; lia. }
  rewrite B1, refill_within in B2 by (simpl; lia). simpl in B2.
  destruct (invoke_takes_token op pref p3 t3 h2 _ Hlimit V3 Hyes S2)
    as (r3 & h3 & E3 & N3 & B3 & S3).
  { rewrite B2, refill_within; simpl; lia. }
  rewrite B2, refill_within in B3 by (simpl; lia). simpl in B3.
  destruct (invoke_exhausted op pref p4 t4 h3 _ Hlimit V4 Hyes S3)
    as (h4 & E4 & W4 & Nt4).
  { rewrite B3, refill_within; simpl; lia. }
  exists r1, r2, r3, h3, h4. simpl. rewrite E1, E2, E3.
  repeat split; auto.
Qed.

End Host.

Lemma standing_allow_skips_consent_witness :
  ∃ new,
    prompts (run unit openResolve openExchange [] 5 (answering ApproveOnce)
               noViolations sameRequest minuteWindow noRefresh
               exampleCalls allowingHost).2 = prompts allowingHost ++ new ∧
    Forall (λ e, operationId (operation e.1) ≠ operationId createTaskDescriptor) new ∧
    standing (run unit openResolve openExchange [] 5 (answering ApproveOnce)
                noViolations sameRequest minuteWindow noRefresh
                exampleCalls allowingHost).2 !! operationId createTaskDescriptor
      = Some AlwaysAllow ∧
    ∀ ps,
      requestApproval unit (answering ApproveOnce) createTaskDescriptor ps
        (run unit openResolve openExchange [] 5 (answering ApproveOnce)
           noViolations sameRequest minuteWindow noRefresh
           exampleCalls allowingHost).2 =
      (ApproveAlways,
       (run unit openResolve openExchange [] 5 (answering ApproveOnce)
          noViolations sameRequest minuteWindow noRefresh
          exampleCalls allowingHost).2).
Proof.
  apply (standing_allow_skips_consent openResolve openExchange [] 5
           (answering ApproveOnce) noViolations sameRequest minuteWindow noRefresh
           exampleCalls allowingHost createTaskDescriptor).
  vm_compute. reflexivity.
Defined.

Lemma standing_entries_need_blanket_always_witness :
  standing (invoke unit openResolve openExchange [] 5 (answering ApproveAlways)
              noViolations sameRequest minuteWindow noRefresh
              deleteTaskDescriptor Auto JNull 0 freshHost).2 = standing freshHost ∧
  standing (requestApproval unit (answering ApproveAlways)
              deleteTaskDescriptor JNull freshHost).2 !! "deleteTask" = None.
Proof.
  destruct (proj2 (standing_entries_need_blanket_always
                     openResolve openExchange [] 5 (answering ApproveAlways)
                     noViolations sameRequest minuteWindow noRefresh [] freshHost)
              deleteTaskDescriptor Auto JNull 0%Z eq_refl) as (H1 & _ & H3).
  split; [exact H1|]. apply H3; reflexivity.
Defined.

Lemma fourth_call_is_rate_limited_witness :
  ∃ r1 r2 r3 h3 h4,
    run unit openResolve openExchange [] 5 (answering ApproveOnce)
      noViolations sameRequest minuteWindow noRefresh
      [ {| callOp := listTasksDescriptor; callPref := Auto; callParams := JNull;
           callTime := 0 |};
        {| callOp := listTasksDescriptor; callPref := Auto; callParams := JNull;
           callTime := 1000 |};
        {| callOp := listTasksDescriptor; callPref := Auto; callParams := JNull;
           callTime := 2000 |} ] freshHost
      = ([r1; r2; r3], h3) ∧
    r1 ≠ inl RateLimited ∧ r2 ≠ inl RateLimited ∧ r3 ≠ inl RateLimited ∧
    buckets h3 !! operationId listTasksDescriptor =
      Some {| tokens := 0; windowStart := 0 |} ∧
    invoke unit openResolve openExchange [] 5 (answering ApproveOnce)
      noViolations sameRequest minuteWindow noRefresh
      listTasksDescriptor Auto JNull 59999 h3 = (inl RateLimited, h4) ∧
    wire h4 = wire h3 ∧ net h4 = net h3.
Proof.
  apply (fourth_call_is_rate_limited openResolve openExchange [] 5
           (answering ApproveOnce) noViolations sameRequest minuteWindow noRefresh
           listTasksDescriptor Auto JNull JNull JNull JNull 0 1000 2000 59999
           freshHost).
  - reflexivity.
  - vm_compute. reflexivity.
  - repeat constructor.
  - intros hist req _. exists ApproveOnce. split; reflexivity.
  - vm_compute. discriminate.
  - unfold minuteWindow. lia.
  - unfold minuteWindow. lia.
  - unfold minuteWindow. lia.
Defined.

End ToolGeneratorFacts.

(* ===================================================================== *)
(** * Part III: further properties of the source                          *)
(* ===================================================================== *)

Module UpgradeMore.
Import Upgrade UpgradeConsole.

Section Script.
Context {World : Type} (shell : string -> option string -> World -> Z * World).

(** X1: whatever the commands return, codes above 1 and negative ones
    included, the script itself exits with 0 or with 1; a command's own exit
    code is never passed on. *)
Theorem exit_code_is_zero_or_one (todo : list Step) (failed : bool) (w : World) :
  exitCode (main shell w) ∈ [0%Z; 1%Z] ∧
  exitCode (loop shell todo failed w) ∈ [0%Z; 1%Z].
Proof.
  split.
  - destruct (UpgradeFacts.loop_exit_range shell steps false w) as [H|H];
      unfold main; rewrite H; set_solver.
  - destruct (UpgradeFacts.loop_exit_range shell todo failed w) as [-> | ->];
      set_solver.
Qed.

Lemma loop_ran_length todo failed w :
  length (ran (loop shell todo failed w)) ≤ length todo ∧
  (todo ≠ [] -> 1 ≤ length (ran (loop shell todo failed w))).
Proof.
  revert failed w. induction todo as [|s rest IH]; intros failed w; simpl.
  - split; [lia|congruence].
  - destruct (shell _ _ w) as [code w'].
    destruct (code =? 0)%Z; [|destruct (critical s)]; simpl;
      try (split; lia);
      match goal with |- context [loop shell rest ?f w'] =>
        destruct (IH f w') as [? _] end; split; lia.
Qed.

(** X2: the commands that run are always the first so many steps of the
    array, in declaration order, each once, with the exit codes the shell
    gives them; the machine left behind is the one exactly those commands
    acted on, one after the other; and only an empty array runs nothing:
    the first step always runs. *)
Theorem commands_run_in_order (todo : list Step) (failed : bool) (w : World) :
  ran (loop shell todo failed w) =
    take (length (ran (loop shell todo failed w))) (outcomes shell todo w) ∧
  final (loop shell todo failed w) =
    foldl (λ w' s, (shell (command s) (cwd s) w').2) w
      (take (length (ran (loop shell todo failed w))) todo) ∧
  map fst (ran (loop shell todo failed w)) =
    map name (take (length (ran (loop shell todo failed w))) todo) ∧
  length (ran (loop shell todo failed w)) ≤ length todo ∧
  (length (ran (loop shell todo failed w)) = 0 ↔ todo = []).
Proof.
  split; [apply UpgradeFacts.loop_ran_outcomes|].
  split; [apply UpgradeFacts.loop_final_fold|].
  split; [apply UpgradeFacts.loop_ran_prefix|].
  destruct (loop_ran_length todo failed w) as [Hle Hge].
  split; [exact Hle|]. split.
  - intros H0. destruct todo as [|s rest]; [reflexivity|].
    assert (s :: rest ≠ []) as Hne by discriminate.
    specialize (Hge Hne). lia.
  - intros ->. reflexivity.
Qed.

(** X3: the exit code is 1 exactly when the flag was already raised or
    some command that ran returned a nonzero code; for the script as a
    whole, exactly when some command that ran failed. *)
Theorem exit_one_iff_some_failure (todo : list Step) (failed : bool) (w : World) :
  (exitCode (loop shell todo failed w) = 1%Z ↔
   failed = true ∨ Exists (λ e, e.2 ≠ 0%Z) (ran (loop shell todo failed w))) ∧
  (exitCode (main shell w) = 1%Z ↔ Exists (λ e, e.2 ≠ 0%Z) (ran (main shell w))).
Proof.
  assert (G : ∀ todo failed w,
    exitCode (loop shell todo failed w) = 1%Z ↔
    failed = true ∨ Exists (λ e, e.2 ≠ 0%Z) (ran (loop shell todo failed w))).
  { clear. intros todo. induction todo as [|s rest IH]; intros failed w; simpl.
    - rewrite Exists_nil. destruct failed; split; auto.
      + intros [=].
      + intros [[=]|[]].
    - destruct (shell _ _ w) as [code w'].
      destruct (Z.eqb_spec code 0) as [->|Hcode].
      + rewrite UpgradeFacts.exitCode_logged, UpgradeFacts.ran_logged, IH, Exists_cons.
        simpl. intuition congruence.
      + destruct (critical s); simpl.
        * rewrite Exists_cons. simpl. intuition.
        * rewrite IH, Exists_cons. simpl. intuition. }
  split; [apply G|]. unfold main. rewrite G. intuition congruence.
Qed.

(** X4: as long as no critical command fails, running the loop over
    [a ++ b] is running it over [a] and then over [b], with the flag and
    the machine [a] left behind; and the machine at the end of [a] is the
    one obtained by running its commands one after the other, each on what
    the previous one left. *)
Theorem loop_composes (a b : list Step) (failed : bool) (w : World) :
  (∀ i step c, a !! i = Some step ->
     ran (loop shell a failed w) !! i = Some (name step, c) ->
     c ≠ 0%Z -> critical step = false) ->
  loop shell (a ++ b) failed w =
    {| ran := ran (loop shell a failed w) ++
              ran (loop shell b (exitCode (loop shell a failed w) =? 1)%Z
                     (final (loop shell a failed w)));
       exitCode :=
         exitCode (loop shell b (exitCode (loop shell a failed w) =? 1)%Z
                     (final (loop shell a failed w)));
       final :=
         final (loop shell b (exitCode (loop shell a failed w) =? 1)%Z
                  (final (loop shell a failed w))) |} ∧
  final (loop shell a failed w) =
    foldl (λ w' s, (shell (command s) (cwd s) w').2) w a.
Proof.
  revert failed w. induction a as [|s rest IH]; intros failed w H; simpl in *.
  - split; [|reflexivity]. destruct failed; simpl; by destruct (loop shell b _ w).
  - destruct (shell _ _ w) as [code w'] eqn:Hsh. simpl.
    destruct (Z.eqb_spec code 0) as [->|Hcode].
    + destruct (IH failed w') as [IH1 IH2].
      { intros i step c Hi Hr. apply (H (S i) step c Hi Hr). }
      rewrite IH1. simpl. split; [reflexivity|exact IH2].
    + destruct (critical s) eqn:Hcrit.
      * specialize (H 0%nat s code eq_refl eq_refl Hcode). congruence.
      * destruct (IH true w') as [IH1 IH2].
        { intros i step c Hi Hr. apply (H (S i) step c Hi Hr). }
        rewrite IH1. simpl. split; [reflexivity|exact IH2].
Qed.

(** X5: after a critical command has failed, the steps behind it play no
    part at all: exit code, commands run and the machine left behind are
    those of the script cut off after the failing step. *)
Theorem steps_after_critical_failure_are_inert
    (todo : list Step) (failed : bool) (w : World) (i : nat) (step : Step) (c : Z) :
  todo !! i = Some step ->
  critical step = true ->
  ran (loop shell todo failed w) !! i = Some (name step, c) ->
  c ≠ 0%Z ->
  loop shell todo failed w = loop shell (take (S i) todo) failed w.
Proof.
  revert failed w i. induction todo as [|s rest IH]; intros failed w i Hi Hc Hr Hne.
  - discriminate.
  - simpl in *. destruct (shell _ _ w) as [code w'].
    destruct i as [|i]; simpl in Hi.
    + injection Hi as ->. rewrite take_0. simpl.
      destruct (Z.eqb_spec code 0) as [->|Hcode].
      * simpl in Hr. congruence.
      * rewrite Hc. reflexivity.
    + destruct (Z.eqb_spec code 0) as [->|Hcode].
      * simpl in Hr. by rewrite (IH failed w' i Hi Hc Hr Hne).
      * destruct (critical s); simpl in *; [discriminate|].
        by rewrite (IH true w' i Hi Hc Hr Hne).
Qed.

(** *** The console *)

Lemma header_is_header n : isHeader (log (">> " +:+ n)) = true.
Proof. unfold isHeader. simpl. by destruct n. Qed.

Lemma newline_is_no_header stream text : isHeader (stream, newline +:+ text) = false.
Proof. reflexivity. Qed.

(** X6: the script writes to standard error exactly when it exits with a
    nonzero code: a run that exits with 0 prints to standard output only,
    and every run that exits with 1 has said why on standard error. *)
Theorem stderr_silent_iff_exit_zero (todo : list Step) (failed : bool) (w : World) :
  Forall (λ line, line.1 = Stdout) (console shell todo failed w) ↔
  exitCode (loop shell todo failed w) = 0%Z.
Proof.
  revert failed w. induction todo as [|s rest IH]; intros failed w; simpl.
  - destruct failed; simpl; split; intros H; try discriminate; try reflexivity.
    + apply Forall_inv in H. discriminate.
    + by repeat constructor.
  - destruct (shell _ _ w) as [code w'].
    rewrite !Forall_cons. simpl.
    destruct (Z.eqb_spec code 0) as [->|Hcode].
    + rewrite Forall_cons, IH. simpl. tauto.
    + rewrite Forall_cons. simpl. destruct (critical s); simpl.
      * split; [intros (_ & _ & _ & [=] & _)|discriminate].
      * split; [intros (_ & _ & _ & [=] & _)|].
        intros H. exfalso.
        destruct (proj1 (UpgradeFacts.loop_exit_zero shell rest true w') H) as [[=] _].
Qed.

(** X7: the header lines [>> name] on the console are exactly the names of
    the commands that ran, in order: every command run is announced, and
    nothing is announced that does not run. *)
Theorem headers_announce_commands_run (todo : list Step) (failed : bool) (w : World) :
  filter (λ line, isHeader line = true) (console shell todo failed w) =
  map (λ e, log (">> " +:+ e.1)) (ran (loop shell todo failed w)).
Proof.
  assert (Hno : ∀ stream text rest,
    filter (λ line, isHeader line = true) ((stream, newline +:+ text) :: rest) =
    filter (λ line, isHeader line = true) rest).
  { intros. apply filter_cons_False. by rewrite newline_is_no_header. }
  revert failed w. induction todo as [|s rest IH]; intros failed w; simpl.
  - by destruct failed.
  - destruct (shell _ _ w) as [code w']. unfold log at 1. rewrite Hno.
    rewrite filter_cons_True by apply header_is_header.
    rewrite filter_cons_False by (by unfold isHeader).
    destruct (Z.eqb_spec code 0) as [->|Hcode].
    + unfold log at 2. rewrite Hno. simpl. by rewrite IH.
    + unfold error at 1. rewrite Hno.
      destruct (critical s); simpl.
      * rewrite filter_cons_False by (by unfold isHeader). reflexivity.
      * rewrite filter_cons_False by (by unfold isHeader). by rewrite IH.
Qed.

(** X8: the last line the script prints tells how it ended: it is "Upgrade
    completed successfully." on standard output exactly when the exit code
    is 0, and it is always that line, "Upgrade completed with warnings." or
    "Critical step failed, aborting.", the latter two on standard error. *)
Theorem last_line_tells_the_outcome (todo : list Step) (failed : bool) (w : World) :
  (last (console shell todo failed w) =
     Some (log (newline +:+ "Upgrade completed successfully.")) ↔
   exitCode (loop shell todo failed w) = 0%Z) ∧
  (last (console shell todo failed w) =
     Some (log (newline +:+ "Upgrade completed successfully.")) ∨
   last (console shell todo failed w) =
     Some (warn (newline +:+ "Upgrade completed with warnings.")) ∨
   last (console shell todo failed w) =
     Some (error "Critical step failed, aborting.")).
Proof.
  revert failed w. induction todo as [|s rest IH]; intros failed w; simpl.
  - destruct failed; simpl; split; try (split; discriminate); auto.
    split; auto.
  - destruct (shell _ _ w) as [code w']. rewrite !last_cons_cons.
    destruct (Z.eqb_spec code 0) as [->|Hcode].
    + destruct (console shell rest failed w') as [|l ls] eqn:Hcon.
      { destruct rest; simpl in Hcon; [destruct failed; discriminate|].
        destruct (shell _ _ w'). discriminate. }
      rewrite !last_cons_cons, <- Hcon, UpgradeFacts.exitCode_logged. apply IH.
    + rewrite last_cons_cons. destruct (critical s); simpl.
      * split; [split; discriminate|auto].
      * destruct (console shell rest true w') as [|l ls] eqn:Hcon.
        { destruct rest; simpl in Hcon; [discriminate|].
          destruct (shell _ _ w'). discriminate. }
        rewrite last_cons_cons, <- Hcon. apply IH.
Qed.

End Script.

Lemma loop_composes_witness :
  ran (main (scriptedShell ["bun run fix"]) []) =
    ran (loop (scriptedShell ["bun run fix"]) (take 3 steps) false []) ++
    ran (loop (scriptedShell ["bun run fix"]) (drop 3 steps) false
           [ "bunx @next/codemod@latest upgrade";
             "bunx shadcn@latest add --all --overwrite"; "bun update" ]) ∧
  final (loop (scriptedShell ["bun run fix"]) (take 3 steps) false []) =
    [ "bunx @next/codemod@latest upgrade";
      "bunx shadcn@latest add --all --overwrite"; "bun update" ].
Proof.
  destruct (loop_composes (scriptedShell ["bun run fix"])
              (take 3 steps) (drop 3 steps) false []) as [Hrun Hfinal].
  - intros i step c Hi Hr Hne. vm_compute in Hr.
    do 3 (destruct i as [|i]; [injection Hr as _ <-; lia|]).
    discriminate.
  - split; [|exact Hfinal].
    change (main (scriptedShell ["bun run fix"]) [])
      with (loop (scriptedShell ["bun run fix"]) (take 3 steps ++ drop 3 steps) false []).
    rewrite Hrun. reflexivity.
Defined.

Lemma steps_after_critical_failure_are_inert_witness :
  main (scriptedShell ["bun update"]) [] =
  loop (scriptedShell ["bun update"]) (take 3 steps) false [].
Proof.
  apply (steps_after_critical_failure_are_inert (scriptedShell ["bun update"])
           steps false [] 2
           {| name := "Dependency Update"; command := "bun update";
              cwd := None; critical := true |} 2%Z).
  - reflexivity.
  - reflexivity.
  - vm_compute. reflexivity.
  - lia.
Defined.

End UpgradeMore.

Module ToolsFromOpenAPIMore.
Import OpenAPI ToolsFromOpenAPI.

(** [Object.fromEntries] over any start: the value under a key is that of
    the last entry with the key. *)
Lemma foldl_insert_lookup_last {A V : Type} (key : A -> string) (val : A -> V)
    (l : list A) (m : gmap string V) (k : string) :
  foldl (λ m kv, <[kv.1 := kv.2]> m) m (map (λ a, (key a, val a)) l) !! k =
  match last (filter (λ a, key a = k) l) with
  | Some a => Some (val a)
  | None => m !! k
  end.
Proof.
  revert m. induction l as [|a l IH]; intros m; simpl; [reflexivity|].
  rewrite IH, filter_cons. destruct (decide (key a = k)) as [Hk|Hk].
  - rewrite last_cons. destruct (last (filter _ l)); [reflexivity|].
    rewrite <- Hk. apply lookup_insert_eq.
  - destruct (last (filter _ l)); [reflexivity|]. by apply lookup_insert_ne.
Qed.

(** How many keys [Object.fromEntries] ends up with. *)
Lemma foldl_insert_size {V : Type} (l : list (string * V)) (m : gmap string V) :
  size (foldl (λ m kv, <[kv.1 := kv.2]> m) m l) ≤ size m + length l ∧
  (size (foldl (λ m kv, <[kv.1 := kv.2]> m) m l) = size m + length l ↔
   NoDup (map fst l) ∧ ∀ k, k ∈ map fst l -> m !! k = None).
Proof.
  revert m. induction l as [|[k v] l IH]; intros m; simpl.
  - split; [lia|]. split; [intros _|lia]. split; [constructor|].
    intros k Hk. by apply elem_of_nil in Hk.
  - destruct (IH (<[k:=v]> m)) as [IHle IHeq].
    pose proof (map_size_insert k v m) as Hsz.
    destruct (m !! k) eqn:Hmk; simpl in Hsz; unfold id in Hsz.
    + split; [lia|]. split; [lia|].
      intros [_ Hnone]. specialize (Hnone k (list_elem_of_here _ _)). congruence.
    + split; [lia|]. split.
      * intros Heq. assert (Heq' : size (foldl (λ m kv, <[kv.1 := kv.2]> m)
                                           (<[k:=v]> m) l)
                                   = size (<[k:=v]> m) + length l) by lia.
        apply IHeq in Heq' as [Hnd Hnone].
        assert (Hk : k ∉ map fst l).
        { intros Hin. specialize (Hnone k Hin). by rewrite lookup_insert_eq in Hnone. }
        split; [by constructor|].
        intros k' [->|Hin]%elem_of_cons; [exact Hmk|].
        specialize (Hnone k' Hin).
        rewrite lookup_insert_ne in Hnone; [exact Hnone|]. intros ->. contradiction.
      * intros [Hnd Hnone]. apply NoDup_cons in Hnd as [Hk Hnd].
        assert (Heq' : size (foldl (λ m kv, <[kv.1 := kv.2]> m) (<[k:=v]> m) l)
                       = size (<[k:=v]> m) + length l).
        { apply IHeq. split; [exact Hnd|]. intros k' Hin.
          rewrite lookup_insert_ne; [apply Hnone; by right|].
          intros ->. contradiction. }
        lia.
Qed.

Lemma append_same_left (s t : string) : s +:+ t = s -> t = "".
Proof.
  induction s as [|a s IH]; simpl; [auto|]. intros [= H]. auto.
Qed.

Lemma append_empty_right (s : string) : s +:+ "" = s.
Proof.
  induction s as [|a s IH]; [reflexivity|].
  change (String a (s +:+ "") = String a s). by rewrite IH.
Qed.

Lemma prefix_append (s t : string) : String.prefix s (s +:+ t) = true.
Proof.
  induction s as [|a s IH]; [by destruct t|].
  change (String.prefix (String a s) (String a (s +:+ t)) = true). simpl.
  destruct (Ascii.ascii_dec a a); [exact IH|contradiction].
Qed.

Section Client.
Context {AuthTokens Zod : Type}.
Context (getOperationsWithXLlm : OpenAPIDocument -> list Operation).
Context (jsonSchemaToZod : list ParameterObject -> Zod).
Context (approvalReply : list (Event AuthTokens) -> Operation -> Json -> Settled bool).
Context (endpointReply :
  list (Event AuthTokens) -> Operation -> Json -> AuthTokens -> Settled Json).

Local Abbreviation execute := (execute AuthTokens approvalReply endpointReply).
Local Abbreviation tool :=
  (tool AuthTokens Zod jsonSchemaToZod approvalReply endpointReply).
Local Abbreviation toolsFromOpenAPI :=
  (toolsFromOpenAPI AuthTokens Zod getOperationsWithXLlm jsonSchemaToZod
     approvalReply endpointReply).

(** X9: when several operations share an [operationId], the tool found
    under that name is the one built from the last of them; the earlier
    ones are silently replaced.  A name no operation carries has no tool. *)
Theorem tool_is_built_from_last_operation (spec : OpenAPIDocument)
    (tokens : AuthTokens) (n : string) :
  toolsFromOpenAPI spec tokens !! n =
  (λ op, tool op tokens) <$>
    last (filter (λ op, operationId op = n) (getOperationsWithXLlm spec)).
Proof.
  unfold ToolsFromOpenAPI.toolsFromOpenAPI, fromEntries.
  rewrite (foldl_insert_lookup_last operationId (λ op, tool op tokens)).
  rewrite lookup_empty. by destruct (last _).
Qed.

(** X10: there are never more tools than operations, and there are as many
    exactly when no two operations share an [operationId]. *)
Theorem one_tool_per_operation_iff_distinct_ids (spec : OpenAPIDocument)
    (tokens : AuthTokens) :
  size (toolsFromOpenAPI spec tokens) ≤ length (getOperationsWithXLlm spec) ∧
  (size (toolsFromOpenAPI spec tokens) = length (getOperationsWithXLlm spec) ↔
   NoDup (map operationId (getOperationsWithXLlm spec))).
Proof.
  unfold ToolsFromOpenAPI.toolsFromOpenAPI, fromEntries.
  destruct (foldl_insert_size
              (map (λ op, (operationId op, tool op tokens))
                 (getOperationsWithXLlm spec)) ∅) as [Hle Heq].
  rewrite map_size_empty, length_map, map_map in *. simpl in *.
  split; [lia|]. rewrite Heq. split; [tauto|].
  intros Hnd. split; [exact Hnd|]. intros k _. apply lookup_empty.
Qed.

(** X11: one call of [execute] does one of four things and nothing else:
    nothing at all, one consent prompt, one call of the endpoint, or one
    prompt followed by one call of the endpoint, always for the tool's own
    operation, the caller's parameters and the tokens the tools were built
    with.  What was logged before is left as it was. *)
Theorem execute_events_shape (op : Operation) (tokens : AuthTokens) (params : Json)
    (log : list (Event AuthTokens)) :
  ∃ new, (execute op tokens params log).2 = log ++ new ∧
    (new = [] ∨ new = [Asked op params] ∨ new = [Fetched op params tokens] ∨
     new = [Asked op params; Fetched op params tokens]).
Proof.
  unfold ToolsFromOpenAPI.execute, bind, requestApproval, fetchEndpoint, throw, ret.
  destruct (x_llm op) as [m|]; [|exists []; rewrite app_nil_r; auto].
  destruct (decide _); [|eexists; split; [reflexivity|auto]].
  destruct (approvalReply log op params) as [[|]|err]; simpl.
  - exists [Asked op params; Fetched op params tokens].
    rewrite <- app_assoc. auto 6.
  - eexists; split; [reflexivity|auto].
  - eexists; split; [reflexivity|auto].
Qed.

(** X12: whenever the endpoint is called, [execute] settles exactly as the
    endpoint does, with its value or with its rejection, and the call is the
    last thing that happens; the endpoint sees the log as it stood at the
    start or right after the consent prompt. *)
Theorem execute_settles_as_endpoint (op : Operation) (tokens : AuthTokens)
    (params : Json) (log : list (Event AuthTokens)) :
  existsb isFetched (emitted (execute op tokens params) log) = true ->
  ∃ before,
    (before = log ∨ before = log ++ [Asked op params]) ∧
    execute op tokens params log =
      (endpointReply before op params tokens, before ++ [Fetched op params tokens]).
Proof.
  unfold emitted, ToolsFromOpenAPI.execute, bind, requestApproval, fetchEndpoint,
    throw, ret.
  destruct (x_llm op) as [m|]; simpl.
  - destruct (decide _).
    + destruct (approvalReply log op params) as [[|]|err]; simpl;
        rewrite ?drop_app_length; simpl; try discriminate.
      intros _. exists (log ++ [Asked op params]). auto.
    + intros _. exists log. auto.
  - rewrite drop_all. discriminate.
Qed.

(** X13: [execute] rejects for three reasons only: the operation has no
    [x-llm] block (a [TypeError], before anything happens); the consent
    prompt itself rejected (the endpoint is then not called); or the
    endpoint rejected. *)
Theorem execute_rejection_causes (op : Operation) (tokens : AuthTokens)
    (params : Json) (log : list (Event AuthTokens)) (e : Error) :
  (execute op tokens params log).1 = Rejected e ->
  (x_llm op = None ∧ e = TypeError ∧ (execute op tokens params log).2 = log) ∨
  (approvalReply log op params = Rejected e ∧
   (execute op tokens params log).2 = log ++ [Asked op params]) ∨
  (∃ before, endpointReply before op params tokens = Rejected e ∧
             (execute op tokens params log).2 = before ++ [Fetched op params tokens]).
Proof.
  unfold ToolsFromOpenAPI.execute, bind, requestApproval, fetchEndpoint, throw, ret.
  destruct (x_llm op) as [m|]; simpl; [|intros [= <-]; auto].
  destruct (decide _); simpl; [|intros H; right; right; eauto].
  destruct (approvalReply log op params) as [[|]|err] eqn:Hr; simpl.
  - intros H. right. right. eauto.
  - discriminate.
  - intros [= <-]. right. left. auto.
Qed.

(** X14: [execute] puts a consent prompt exactly when the operation's own
    [x-llm.approval] is "per-call"; a missing block or a missing field means
    no prompt. *)
Theorem prompt_iff_per_call (op : Operation) (tokens : AuthTokens) (params : Json)
    (log : list (Event AuthTokens)) :
  existsb isAsked (emitted (execute op tokens params) log) = true ↔
  (x_llm op ≫= approval) = Some PerCall.
Proof.
  unfold emitted, ToolsFromOpenAPI.execute, bind, requestApproval, fetchEndpoint,
    throw, ret.
  destruct (x_llm op) as [m|]; simpl.
  - destruct (decide _) as [Hp|Hp]; simpl.
    + destruct (approvalReply log op params) as [[|]|err]; simpl;
        rewrite <- ?app_assoc, drop_app_length; simpl; tauto.
    + rewrite drop_app_length. simpl. split; [discriminate|contradiction].
  - rewrite drop_all. simpl. split; discriminate.
Qed.

(** X15: a tool's description always begins with what the operation's
    summary contributes, the text "undefined" when the operation has no
    summary, and it is exactly that exactly when the hint is missing or
    empty; an empty hint does not leave a trailing newline. *)
Theorem description_is_summary_iff_no_hint (op : Operation) (tokens : AuthTokens) :
  String.prefix (summaryText op) (description AuthTokens Zod (tool op tokens)) = true ∧
  (description AuthTokens Zod (tool op tokens) = summaryText op ↔
   (x_llm op ≫= hint) = None ∨ (x_llm op ≫= hint) = Some "") ∧
  (summary op = None ->
   String.prefix "undefined" (description AuthTokens Zod (tool op tokens)) = true) ∧
  (∀ text, summary op = Some text ->
   String.prefix text (description AuthTokens Zod (tool op tokens)) = true).
Proof.
  assert (Hpre : String.prefix (summaryText op)
                   (description AuthTokens Zod (tool op tokens)) = true).
  { simpl. unfold describe. apply prefix_append. }
  split; [exact Hpre|]. split; [|split].
  - simpl. unfold describe. destruct (x_llm op ≫= hint) as [h|].
    + destruct (decide (h = "")) as [->|Hh].
      * split; [auto|]. intros _. apply append_empty_right.
      * split.
        -- intros H%append_same_left. discriminate.
        -- intros [[=]|[= ->]]. contradiction.
    + split; [auto|]. intros _. apply append_empty_right.
  - intros Hnone. unfold summaryText in Hpre. by rewrite Hnone in Hpre.
  - intros text Hsome. unfold summaryText in Hpre. by rewrite Hsome in Hpre.
Qed.

End Client.

Lemma execute_settles_as_endpoint_witness :
  ∃ before,
    (before = [] ∨ before = [] ++ [Asked deleteTask JNull]) ∧
    execute unit (fixedReply true) nullEndpoint deleteTask tt JNull [] =
      (nullEndpoint before deleteTask JNull tt, before ++ [Fetched deleteTask JNull tt]).
Proof.
  apply (execute_settles_as_endpoint (fixedReply true) nullEndpoint
           deleteTask tt JNull []).
  reflexivity.
Defined.

Lemma description_is_summary_iff_no_hint_witness :
  String.prefix "undefined"
    (description unit unit
       (tool unit unit (λ _, tt) (fixedReply true) nullEndpoint deleteTask tt)) = true.
Proof.
  destruct (description_is_summary_iff_no_hint (λ _, tt) (fixedReply true)
              nullEndpoint deleteTask tt) as (_ & _ & Hmissing & _).
  apply Hmissing. reflexivity.
Defined.

Lemma execute_rejection_causes_witness :
  (x_llm health = None ∧ TypeError = TypeError ∧
   (execute unit (fixedReply true) nullEndpoint health tt JNull []).2 = []) ∨
  (fixedReply true [] health JNull = Rejected TypeError ∧
   (execute unit (fixedReply true) nullEndpoint health tt JNull []).2
     = [] ++ [Asked health JNull]) ∨
  (∃ before, nullEndpoint before health JNull tt = Rejected TypeError ∧
     (execute unit (fixedReply true) nullEndpoint health tt JNull []).2
       = before ++ [Fetched health JNull tt]).
Proof.
  apply (execute_rejection_causes (fixedReply true) nullEndpoint
           health tt JNull [] TypeError).
  reflexivity.
Defined.

End ToolsFromOpenAPIMore.
